(** * The image transformation pipeline of the img.ly SDK (Night UI)

    A shallow embedding of
    - [src/js/ui/night/ui.js]: the fixed operation order of [NightUI] and
      [NightUI._initOperations], which instantiates the selected operations,
      installs their "update" listener and pushes them on the kit's
      operations stack;
    - the [OrchidFilter] and [FixieFilter] variants and their [render]
      functions, which build a [PrimitivesStack] and run it on a renderer.

    JavaScript objects that are shared and mutated in place (operation
    instances, primitives stacks) live in an explicit heap and are referred
    to through their address.  Code that can throw is written in a
    state-and-exception monad in which the state survives a throw, as the
    mutations of a JavaScript function survive the exception that ends it. *)

From Stdlib Require Import ZArith QArith Qround.
From stdpp Require Import base option strings list sorting gmap.

Open Scope string_scope.
Open Scope list_scope.

(** ** Completions and the state-and-exception monad *)

Inductive Exn : Type :=
  | TypeError            (* calling [new] on a value that is no constructor *)
  | ConfigurationError.  (* malformed parameters of a primitive *)

Inductive Completion (A : Type) : Type :=
  | Normal (a : A)
  | Throw (e : Exn).
Arguments Normal {A} a.
Arguments Throw {A} e.

Definition M (S A : Type) : Type := S → Completion A * S.

#[export] Instance M_ret {S} : MRet (M S) := λ A a s, (Normal a, s).

#[export] Instance M_bind {S} : MBind (M S) := λ A B f m s,
  match m s with
  | (Normal a, s') => f a s'
  | (Throw e, s') => (Throw e, s')
  end.

Definition throw {S A} (e : Exn) : M S A := λ s, (Throw e, s).
Definition get {S} : M S S := λ s, (Normal s, s).
Definition modify {S} (f : S → S) : M S () := λ s, (Normal (), f s).

(** [for (let x of l) body], where [continue] is the early return of [body]. *)
Fixpoint for_of {S A} (body : A → M S ()) (l : list A) : M S () :=
  match l with
  | [] => mret ()
  | x :: l' => body x ;; for_of body l'
  end.

(** Case analysis on the completion of every call of a monadic body. *)
Ltac step_calls :=
  repeat match goal with
  | |- context [match ?m ?s with _ => _ end] =>
      destruct (m s) as [[?|?] ?]; simpl
  end.

(** ** The Night UI: operations and their fixed order *)

Module NightUI.

(** The `Night` UI has a fixed operation order. *)
Definition _preferredOperationOrder : list string :=
  [ (* First, all operations that affect the image dimensions *)
    "crop-rotation"; "flip";
    (* Then color operations (first filters, then fine-tuning) *)
    "filters"; "contrast"; "brightness"; "saturation";
    (* Then post-processing *)
    "radial-blur"; "tilt-shift"; "frames"; "stickers"; "text" ].

(** The three groups that the comments of [_preferredOperationOrder] name. *)
Inductive Group : Type := Geometry | Color | PostProcessing | Other.

Definition group_of (identifier : string) : Group :=
  if bool_decide (identifier ∈ ["crop-rotation"; "flip"]) then Geometry
  else if bool_decide
            (identifier ∈ ["filters"; "contrast"; "brightness"; "saturation"])
       then Color
  else if bool_decide
            (identifier ∈
               ["radial-blur"; "tilt-shift"; "frames"; "stickers"; "text"])
       then PostProcessing
  else Other.

Definition group_rank (g : Group) : nat :=
  match g with Geometry => 0 | Color => 1 | PostProcessing => 2 | Other => 3 end.

(** Addresses of operation instances in the heap. *)
Definition loc : Type := nat.

(** The closure that [_initOperations] registers for "update"; it captures
    [operationInstance] (and [this], the UI whose state the monad threads). *)
Inductive Listener : Type :=
  | NightUpdate (operationInstance : loc).

Section UI.

(** Operation constructors are opaque: the classes are not part of the UI. *)
Context {Ctor : Type}.

Record OperationInstance : Type := mkOperation {
  (* the registry key under which the constructor was found: the
     operation's identifier *)
  op_identifier : string;
  op_class : Ctor;
  (* [None] is JavaScript's [undefined]: the attribute is not part of the
     SDK's operations, the UI adds it *)
  isIdentity : option bool;
  (* the listeners of the "update" event, in registration order *)
  update_listeners : list Listener
}.

(** The canvas is an instance of the class of [./lib/canvas], which is not
    part of the UI: the UI holds it and calls it. *)
Inductive Canvas : Type := CanvasInstance.

Record State : Type := mkState {
  heap : list OperationInstance;
  operationsStack : list loc;          (* this._kit.operationsStack *)
  _operationsMap : gmap string loc;    (* this._operationsMap *)
  _paused : bool;                      (* this._paused; undefined is false *)
  renders : nat;                       (* calls of this._canvas.render() so far *)
  _canvas : option Canvas;             (* this._canvas; [None] is undefined *)
  (* no field of the UI, modelled from the spec with [note_change] and
     [unpause]: whether a change was made since the session was paused *)
  deferred : bool
}.

Definition set_heap (f : list OperationInstance → list OperationInstance)
    (st : State) : State :=
  mkState (f (heap st)) (operationsStack st) (_operationsMap st)
          (_paused st) (renders st) (_canvas st) (deferred st).

Definition set_paused (b : bool) (st : State) : State :=
  mkState (heap st) (operationsStack st) (_operationsMap st) b (renders st)
          (_canvas st) (deferred st).

Definition set_deferred (b : bool) (st : State) : State :=
  mkState (heap st) (operationsStack st) (_operationsMap st) (_paused st)
          (renders st) (_canvas st) b.

(** [_initCanvas], the one place that assigns the canvas:
    [this._canvas = new Canvas(this._kit, this, this._options)].  The calls
    [this._canvas.run()] and [this._canvas.on("zoom", …)] that follow are
    calls on the canvas, whose class is not among the source files: they
    are taken to return and to leave the fields of the UI as they are. *)
Definition _initCanvas : M State () :=
  modify (λ st, mkState (heap st) (operationsStack st) (_operationsMap st)
                        (_paused st) (renders st) (Some CanvasInstance)
                        (deferred st)).

(** [this.render()], that is [this._canvas.render()]: reading [render] of
    [undefined] is a TypeError, so that the call fails as long as
    [_initCanvas] has not run; afterwards the canvas is asked to re-render
    (a call on the canvas, taken to return; [renders] counts these calls). *)
Definition render : M State () := λ st,
  match _canvas st with
  | None => (Throw TypeError, st)
  | Some _ =>
      (Normal (), mkState (heap st) (operationsStack st) (_operationsMap st)
                          (_paused st) (S (renders st)) (_canvas st)
                          (deferred st))
  end.

(** [new Operation(this._kit)] where [Operation] is the value read from the
    registry: [undefined] is no constructor. *)
Definition new_Operation (identifier : string) (Operation : option Ctor)
    : M State loc :=
  match Operation with
  | None => throw TypeError
  | Some C => λ st,
      (Normal (length (heap st)),
       set_heap (λ h, h ++ [mkOperation identifier C None []]) st)
  end.

(** [operationInstance.isIdentity = b] *)
Definition assign_isIdentity (o : loc) (b : bool) : M State () :=
  modify (set_heap (λ h,
    match h !! o with
    | Some i => <[o := mkOperation (op_identifier i) (op_class i) (Some b)
                                   (update_listeners i)]> h
    | None => h
    end)).

(** [operationInstance.on("update", listener)] *)
Definition on_update (o : loc) (l : Listener) : M State () :=
  modify (set_heap (λ h,
    match h !! o with
    | Some i => <[o := mkOperation (op_identifier i) (op_class i)
                                   (isIdentity i) (update_listeners i ++ [l])]> h
    | None => h
    end)).

(** [this._operationsMap[identifier] = operationInstance] *)
Definition assign_operationsMap (identifier : string) (o : loc) : M State () :=
  modify (λ st, mkState (heap st) (operationsStack st)
                        (<[identifier := o]> (_operationsMap st))
                        (_paused st) (renders st) (_canvas st) (deferred st)).

(** [operationsStack.push(operationInstance)] *)
Definition push (o : loc) : M State () :=
  modify (λ st, mkState (heap st) (operationsStack st ++ [o])
                        (_operationsMap st) (_paused st) (renders st)
                        (_canvas st) (deferred st)).

(** The body of the listener:
    [if (this._paused) return; operationInstance.isIdentity = false;
     this.render();] *)
Definition run_listener (l : Listener) : M State () :=
  match l with
  | NightUpdate operationInstance =>
      st ← get;
      if _paused st then mret ()
      else assign_isIdentity operationInstance false ;; render
  end.

(** The operation at [o] emits "update": its listeners run in order. *)
Definition emit_update (o : loc) : M State () :=
  st ← get;
  match heap st !! o with
  | Some i => for_of run_listener (update_listeners i)
  | None => mret ()
  end.

(** Modelled from the spec: pausing and unpausing a session are not among
    the source files, which only read [_paused].  "Firing the update
    notification must be suppressed while a paused flag is set on the owning
    session": pausing sets the flag. *)
Definition pause : M State () := modify (set_paused true).

(** Modelled from the spec: pausing "defers notification delivery".  A
    parameter change that is made while the flag is set is remembered for
    the time the session is unpaused. *)
Definition note_change : M State () :=
  modify (λ st, if _paused st then set_deferred true st else st).

(** Modelled from the spec: "unpausing must trigger exactly one consolidated
    re-render if any change occurred while paused".  The flag is cleared,
    and [render()] is called once when a change was deferred. *)
Definition unpause : M State () :=
  st ← get;
  modify (λ st, set_deferred false (set_paused false st)) ;;
  if deferred st then render else mret ().

(** What happens to the UI after [_initOperations]: [run()] goes on to
    [_initCanvas]; an operation emits "update" after one of its parameters
    changed; the session is paused ([SetPaused true]) or unpaused
    ([SetPaused false]). *)
Inductive Event : Type :=
  | Update (o : loc)
  | SetPaused (b : bool)
  | InitCanvas.

Definition step (e : Event) : M State () :=
  match e with
  | Update o => note_change ;; emit_update o
  | SetPaused b => if b then pause else unpause
  | InitCanvas => _initCanvas
  end.

(** The events are handled one after the other, each by a call of its own:
    the exception that ends one of them does not keep the next one from
    being handled.  The completion is that of the first one that threw, if
    one did. *)
Definition run_events (es : list Event) : M State () := λ st,
  foldl (λ r e, let r' := step e r.2 in
                (match r.1 with Normal _ => r'.1 | Throw x => Throw x end, r'.2))
        (Normal (), st) es.

(** The identifiers of the operations on the stack, bottom first. *)
Definition identifier_at (st : State) (o : loc) : option string :=
  op_identifier <$> heap st !! o.

Definition stack_identifiers (st : State) : list string :=
  omap (identifier_at st) (operationsStack st).

Definition isIdentity_at (st : State) (o : loc) : option bool :=
  heap st !! o ≫= isIdentity.

Section Init.

(** [this._kit.registeredOperations] maps identifiers to constructors. *)
Variable registeredOperations : gmap string Ctor.
(** [this.isOperationSelected], inherited from the base UI. *)
Variable isOperationSelected : string → bool.

(** One iteration of the loop of [_initOperations]. *)
Definition initOperation (operationIdentifier : string) : M State () :=
  if negb (isOperationSelected operationIdentifier) then mret () (* continue *)
  else
    let Operation := registeredOperations !! operationIdentifier in
    operationInstance ← new_Operation operationIdentifier Operation;
    (* Skip per default *)
    assign_isIdentity operationInstance true ;;
    on_update operationInstance (NightUpdate operationInstance) ;;
    assign_operationsMap operationIdentifier operationInstance ;;
    push operationInstance.

Definition _initOperations : M State () :=
  for_of initOperation _preferredOperationOrder.

End Init.

End UI.

Arguments OperationInstance : clear implicits.
Arguments State : clear implicits.

(** Modelled from the spec: [isOperationSelected] belongs to the base UI,
    which is not among the source files.  The caller's active-operation set
    is given by the identifiers in the order the user activated them; an
    identifier is selected when it is one of them. *)
Definition selected (active : list string) (identifier : string) : bool :=
  bool_decide (identifier ∈ active).

End NightUI.

(** ** Filters: primitives, primitives stacks and the two variants *)

Module Filter.

(** What a call can hand back to [render]'s body. *)
Inductive JSValue : Type :=
  | undefined
  | promise (settled : bool).

(** A control point is the array [[inputLevel, outputLevel]]. *)
Definition ControlPoint : Type := Z * Z.

Record RGBControlPoints : Type := mkRGB {
  red : list ControlPoint;
  green : list ControlPoint;
  blue : list ControlPoint
}.

(** The options object of [Filter.Primitives.ToneCurve]. *)
Inductive ToneCurveOptions : Type :=
  | rgbControlPoints (c : RGBControlPoints)
  | controlPoints (c : list ControlPoint).

(** The options object of [Filter.Primitives.Desaturation]; the literal
    [0.65] is kept as the decimal fraction it is written as. *)
Record DesaturationOptions : Type := mkDesaturation {
  desaturation : Q
}.

Inductive Primitive : Type :=
  | ToneCurve (options : ToneCurveOptions)
  | Desaturation (options : DesaturationOptions).

(** What the filters use of [require("./filter")], which is not part of the
    two variants: the [PrimitivesStack] class and the constructors of the
    primitives.  [S] is the state the calls act on, [Stack] the type of
    references to a [PrimitivesStack] object, [Renderer] the type of the
    [renderer] argument. *)
Class FilterLib (S Stack Renderer : Type) : Type := {
  PrimitivesStack_new : M S Stack;
  PrimitivesStack_add : Stack → Primitive → M S JSValue;
  PrimitivesStack_render : Stack → Renderer → M S JSValue;
  ToneCurve_new : ToneCurveOptions → M S Primitive;
  Desaturation_new : DesaturationOptions → M S Primitive
}.

Section Variants.

Context {S Stack Renderer : Type} {lib : FilterLib S Stack Renderer}.

(** *** Orchid *)

Definition OrchidFilter_identifier : string := "orchid".

Definition OrchidFilter_rgbControlPoints : RGBControlPoints :=
  {| red   := [(0, 0); (115, 130); (195, 215); (255, 255)];
     green := [(0, 0); (148, 153); (172, 215); (255, 255)];
     blue  := [(0, 46); (58, 75); (178, 205); (255, 255)] |}%Z.

Definition OrchidFilter_controlPoints : list ControlPoint :=
  [(0, 0); (117, 151); (189, 217); (255, 255)]%Z.

Definition OrchidFilter_desaturation : DesaturationOptions :=
  {| desaturation := 0.65 |}.

Definition OrchidFilter_render (renderer : Renderer) : M S JSValue :=
  stack ← PrimitivesStack_new;
  (* Tone curve *)
  p ← ToneCurve_new (rgbControlPoints OrchidFilter_rgbControlPoints);
  PrimitivesStack_add stack p ;;
  (* Tone curve *)
  p ← ToneCurve_new (controlPoints OrchidFilter_controlPoints);
  PrimitivesStack_add stack p ;;
  (* Desaturation *)
  p ← Desaturation_new OrchidFilter_desaturation;
  PrimitivesStack_add stack p ;;
  PrimitivesStack_render stack renderer ;;
  (* the body ends without a return statement *)
  mret undefined.

(** *** Fixie *)

Definition FixieFilter_identifier : string := "fixie".

Definition FixieFilter_rgbControlPoints : RGBControlPoints :=
  {| red   := [(0, 0); (44, 28); (63, 48); (128, 132); (235, 248); (255, 255)];
     green := [(0, 0); (20, 10); (60, 45); (190, 209); (211, 231); (255, 255)];
     blue  := [(0, 31); (41, 62); (150, 142); (234, 212); (255, 224)] |}%Z.

Definition FixieFilter_render (renderer : Renderer) : M S JSValue :=
  stack ← PrimitivesStack_new;
  (* Tone curve *)
  p ← ToneCurve_new (rgbControlPoints FixieFilter_rgbControlPoints);
  PrimitivesStack_add stack p ;;
  PrimitivesStack_render stack renderer ;;
  (* the body ends without a return statement *)
  mret undefined.

(** The variants of this development and the selection by identifier. *)
Inductive FilterKind : Type := Orchid | Fixie.

Definition identifier (f : FilterKind) : string :=
  match f with
  | Orchid => OrchidFilter_identifier
  | Fixie => FixieFilter_identifier
  end.

Definition render (f : FilterKind) : Renderer → M S JSValue :=
  match f with
  | Orchid => OrchidFilter_render
  | Fixie => FixieFilter_render
  end.

(** Every tone curve a variant constructs, channel by channel. *)
Definition channels (o : ToneCurveOptions) : list (list ControlPoint) :=
  match o with
  | rgbControlPoints c => [red c; green c; blue c]
  | controlPoints c => [c]
  end.

Definition toneCurves (f : FilterKind) : list ToneCurveOptions :=
  match f with
  | Orchid => [rgbControlPoints OrchidFilter_rgbControlPoints;
               controlPoints OrchidFilter_controlPoints]
  | Fixie => [rgbControlPoints FixieFilter_rgbControlPoints]
  end.

End Variants.

End Filter.

(** ** The tone curve primitive *)

Module ToneCurveModel.

Import Filter.

(** Modelled from the spec: the [ToneCurve] primitive is not among the source
    files.  Its constructor reports malformed control points (fewer than 2
    points, non-increasing input levels) as a configuration error. *)
Fixpoint strictly_increasing (xs : list Z) : bool :=
  match xs with
  | x :: (y :: _) as rest => (x <? y)%Z && strictly_increasing rest
  | _ => true
  end.

(** Modelled from the spec: what the constructor of a tone curve accepts for
    one channel, at least 2 control points with strictly increasing input
    levels. *)
Definition well_formed (pts : list ControlPoint) : bool :=
  (2 <=? length pts)%nat && strictly_increasing pts.*1.

(** Modelled from the spec: the levels of a control point are 0 to 255. *)
Definition is_level (v : Z) : bool := (0 <=? v)%Z && (v <=? 255)%Z.

(** Modelled from the spec: the invariant of a channel's control-point list. *)
Definition valid_control_points (pts : list ControlPoint) : bool :=
  well_formed pts && forallb (λ p, is_level p.1 && is_level p.2) pts.

(** Modelled from the spec: the interpolation of the [ToneCurve] primitive is
    not among the source files.  A channel's curve is a cubic spline through
    the control points, here the cubic Hermite spline with Catmull-Rom
    tangents (the slope between the two neighbours of a point, one-sided at
    both ends); before the first and after the last control point the curve
    keeps the output of that point.  The value is rounded to the nearest
    level and clamped to 0..255, and a 256-entry lookup table holds it for
    every input level. *)
Definition slope (p q : ControlPoint) : Q :=
  (inject_Z (q.2 - p.2) / inject_Z (q.1 - p.1))%Q.

(** Modelled from the spec: the Catmull-Rom tangent at every point of [pts],
    where [prev] is the point before the first (the first itself at the
    start of the list). *)
Fixpoint tangents (prev : ControlPoint) (pts : list ControlPoint) : list Q :=
  match pts with
  | [] => []
  | p :: rest =>
      let next := match rest with q :: _ => q | [] => p end in
      slope prev next :: tangents p rest
  end.

(** Modelled from the spec: the tangents of a channel's control points. *)
Definition catmull_rom (pts : list ControlPoint) : list Q :=
  match pts with
  | [] => []
  | p :: _ => tangents p pts
  end.

(** Modelled from the spec: the cubic Hermite segment from [p0] to [p1] with
    tangents [m0], [m1]. *)
Definition hermite (p0 p1 : ControlPoint) (m0 m1 : Q) (x : Z) : Q :=
  let h := inject_Z (p1.1 - p0.1) in
  let t := (inject_Z (x - p0.1) / h)%Q in
  let t2 := (t * t)%Q in
  let t3 := (t2 * t)%Q in
  ((2 * t3 - 3 * t2 + 1) * inject_Z p0.2
   + (t3 - 2 * t2 + t) * h * m0
   + (3 * t2 - 2 * t3) * inject_Z p1.2
   + (t3 - t2) * h * m1)%Q.

(** Modelled from the spec: the spline over knots (control point, tangent),
    for [x] after the first knot. *)
Fixpoint spline (knots : list (ControlPoint * Q)) (x : Z) : Q :=
  match knots with
  | [] => 0
  | (p0, m0) :: rest =>
      match rest with
      | [] => inject_Z p0.2
      | (p1, m1) :: _ =>
          if (x <=? p1.1)%Z then hermite p0 p1 m0 m1 x else spline rest x
      end
  end.

(** Modelled from the spec: the curve of a channel at input level [x]. *)
Definition curve (tangent : list ControlPoint → list Q)
    (pts : list ControlPoint) (x : Z) : Q :=
  match pts with
  | [] => inject_Z x
  | p :: _ =>
      if (x <=? p.1)%Z then inject_Z p.2 else spline (zip pts (tangent pts)) x
  end.

(** Modelled from the spec: rounding to the nearest level, clamping to
    0..255, and the 256-entry lookup table of a channel. *)
Definition round (v : Q) : Z := Qfloor (v + (1 # 2))%Q.

Definition clamp (v : Z) : Z := Z.max 0 (Z.min 255 v).

Definition level_at (pts : list ControlPoint) (x : Z) : Z :=
  clamp (round (curve catmull_rom pts x)).

Definition lookupTable (pts : list ControlPoint) : list Z :=
  level_at pts <$> seqZ 0 256.

Definition lookup (table : list Z) (v : Z) : Z :=
  default v (table !! Z.to_nat v).

(** Modelled from the spec: a pixel is (red, green, blue, alpha); a single
    curve is applied to the three color channels alike, per-channel curves
    independently. *)
Definition Pixel : Type := Z * Z * Z * Z.

Definition apply_pixel (o : ToneCurveOptions) (px : Pixel) : Pixel :=
  let '(r, g, b, a) := px in
  match o with
  | rgbControlPoints c =>
      (lookup (lookupTable (red c)) r, lookup (lookupTable (green c)) g,
       lookup (lookupTable (blue c)) b, a)
  | controlPoints c =>
      let t := lookupTable c in (lookup t r, lookup t g, lookup t b, a)
  end.

Definition apply_image (o : ToneCurveOptions) (img : list Pixel) : list Pixel :=
  apply_pixel o <$> img.

End ToneCurveModel.

(** ** Primitives stacks and renderers *)

Module PipelineModel.

Import Filter ToneCurveModel.

(** Modelled from the spec: the [Renderer] is an injected dependency.  It
    holds pixel data and renders one primitive at a time,
    [renderPrimitive(kind, parameters, inputPixels) → outputPixels]. *)
Class RendererImpl (Pixels : Type) : Type :=
  renderPrimitive : Primitive → Pixels → Pixels.

Section Model.

Context {Pixels : Type} `{!RendererImpl Pixels}.

(** The [PrimitivesStack] objects allocated so far, addressed by index, and
    the current output of every renderer. *)
Record World : Type := mkWorld {
  stacks : list (list Primitive);
  output : nat → Pixels
}.

Definition write (renderer : nat) (px : Pixels) (out : nat → Pixels)
    : nat → Pixels :=
  λ r, if decide (r = renderer) then px else out r.

(** Modelled from the spec: [PrimitivesStack] is not among the source
    files.  It is an ordered sequence of primitives in insertion order;
    [render(renderer)] executes each primitive in insertion order, each
    consuming the renderer's current output as input and producing new
    output. *)
Definition stack_new : M World nat := λ w,
  (Normal (length (stacks w)), mkWorld (stacks w ++ [[]]) (output w)).

(** Modelled from the spec: [add(primitive)] appends to the sequence. *)
Definition stack_add (stack : nat) (p : Primitive) : M World JSValue := λ w,
  match stacks w !! stack with
  | Some ps =>
      (Normal undefined, mkWorld (<[stack := ps ++ [p]]> (stacks w)) (output w))
  | None => (Throw TypeError, w)
  end.

(** Modelled from the spec: the passes of [render(renderer)], front to
    back, each on the output of the one before. *)
Definition run_primitives (ps : list Primitive) (input : Pixels) : Pixels :=
  foldl (λ px p, renderPrimitive p px) input ps.

(** Modelled from the spec: [render(renderer)] leaves the result of the
    passes in the renderer. *)
Definition stack_render (stack renderer : nat) : M World JSValue := λ w,
  match stacks w !! stack with
  | Some ps =>
      (Normal (promise true),
       mkWorld (stacks w)
               (write renderer (run_primitives ps (output w renderer)) (output w)))
  | None => (Throw TypeError, w)
  end.

(** Modelled from the spec: the constructors of the primitives are not
    among the source files.  Malformed tone-curve control points are
    reported synchronously at construction. *)
Definition tonecurve_new (o : ToneCurveOptions) : M World Primitive :=
  if forallb well_formed (channels o) then mret (ToneCurve o)
  else throw ConfigurationError.

(** Modelled from the spec: a desaturation is constructed from its
    intensity. *)
Definition desaturation_new (o : DesaturationOptions) : M World Primitive :=
  mret (Desaturation o).

(** Modelled from the spec: the library the variants run on. *)
#[export] Instance model : FilterLib World nat nat :=
  {| PrimitivesStack_new := stack_new;
     PrimitivesStack_add := stack_add;
     PrimitivesStack_render := stack_render;
     ToneCurve_new := tonecurve_new;
     Desaturation_new := desaturation_new |}.

End Model.

Arguments World Pixels : clear implicits.

(** The primitives of a stack that are tone curves. *)
Definition toneCurves_of (ps : list Primitive) : list ToneCurveOptions :=
  omap (λ p, match p with ToneCurve o => Some o | Desaturation _ => None end) ps.

(** The stack that the render of a variant builds, as [render_model] shows. *)
Definition built (f : FilterKind) : list Primitive :=
  match f with
  | Orchid => [ToneCurve (rgbControlPoints OrchidFilter_rgbControlPoints);
               ToneCurve (controlPoints OrchidFilter_controlPoints);
               Desaturation OrchidFilter_desaturation]
  | Fixie => [ToneCurve (rgbControlPoints FixieFilter_rgbControlPoints)]
  end.

End PipelineModel.

(** ** The states that initialization goes through *)

Module NightUIPlan.

Import NightUI.

Section Plan.

Context {Ctor : Type}.
Variable registeredOperations : gmap string Ctor.
Variable isOperationSelected : string → bool.

(** The effect of one complete iteration for identifier [p.1] with
    constructor [p.2]: a new instance at the next free address, flagged
    identity, listening to "update", recorded in the map and pushed. *)
Definition install (st : State Ctor) (p : string * Ctor) : State Ctor :=
  let o := length (heap st) in
  mkState (heap st ++ [mkOperation p.1 p.2 (Some true) [NightUpdate o]])
          (operationsStack st ++ [o])
          (<[p.1 := o]> (_operationsMap st))
          (_paused st) (renders st) (_canvas st) (deferred st).

(** The selected identifiers of [l] with their constructors, up to the
    first selected identifier that has none, and whether the end of [l]
    is reached. *)
Fixpoint plan (l : list string) : list (string * Ctor) * bool :=
  match l with
  | [] => ([], true)
  | identifier :: l' =>
      if isOperationSelected identifier then
        match registeredOperations !! identifier with
        | Some C => let r := plan l' in ((identifier, C) :: r.1, r.2)
        | None => ([], false)
        end
      else plan l'
  end.

(** The instance that the [i]-th complete iteration leaves in the heap. *)
Definition fresh (base : nat) (i : nat) (q : string * Ctor)
    : OperationInstance Ctor :=
  mkOperation q.1 q.2 (Some true) [NightUpdate (base + i)].

(** An instance listens when its only "update" listener is the one of the
    UI, as [_initOperations] leaves it. *)
Definition listening (st : State Ctor) (o : loc) : Prop :=
  ∃ i, heap st !! o = Some i ∧ update_listeners i = [NightUpdate o].

End Plan.

(** Operations of an earlier group come first. *)
Definition by_group (a b : string) : Prop :=
  (group_rank (group_of a) ≤ group_rank (group_of b))%nat.

#[export] Instance by_group_dec a b : Decision (by_group a b).
Proof. unfold by_group. apply _. Defined.

End NightUIPlan.

(** ** A session to run the UI on *)

Module NightUIExamples.

Import NightUI.

(** A registry with a constructor, named by its class, for every operation
    of the SDK. *)
Definition registry : gmap string string :=
  list_to_map
    [ ("crop-rotation", "CropRotationOperation"); ("flip", "FlipOperation");
      ("filters", "FiltersOperation"); ("contrast", "ContrastOperation");
      ("brightness", "BrightnessOperation");
      ("saturation", "SaturationOperation");
      ("radial-blur", "RadialBlurOperation");
      ("tilt-shift", "TiltShiftOperation"); ("frames", "FramesOperation");
      ("stickers", "StickersOperation"); ("text", "TextOperation") ].

(** The UI before [_initOperations]: no instance, an empty stack, the empty
    map that [run] has just assigned, not paused, nothing rendered, no
    canvas yet. *)
Definition session : State string := mkState [] [] ∅ false 0 None false.

End NightUIExamples.

(** ** The Night UI: controls and the overview *)

Module NightUIControls.

Import NightUI.

(** What a field of the UI or a lookup in the controls object can hold. *)
Inductive JSRef : Type :=
  | JSUndefined
  | JSNull
  | ControlRef (c : loc)        (* a control instance, by its address *)
  | Inherited (name : string).  (* what the prototype chain of a plain object
                                   holds under [name]: an object or function
                                   that is no control *)

(** [if (v)] *)
Definition truthy (v : JSRef) : bool :=
  match v with
  | JSUndefined | JSNull => false
  | ControlRef _ | Inherited _ => true
  end.

Definition control_of (v : JSRef) : option loc :=
  match v with ControlRef c => Some c | _ => None end.

(** The own properties of the controls object, in the order of their
    creation.  Assigning to a property that exists replaces its value and
    creates nothing.  The order in which [for…in] visits the properties is
    another matter (names that are array indices come first): it is the
    parameter [enumerate] of [_initControls].  (The one name that is no own
    property when assigned, [__proto__], is not among the identifiers the
    UI registers.) *)
Fixpoint obj_set (k : string) (v : loc) (o : list (string * loc))
    : list (string * loc) :=
  match o with
  | [] => [(k, v)]
  | (k', v') :: o' =>
      if decide (k = k') then (k, v) :: o' else (k', v') :: obj_set k v o'
  end.

Fixpoint obj_own (o : list (string * loc)) (k : string) : option loc :=
  match o with
  | [] => None
  | (k', v') :: o' => if decide (k = k') then Some v' else obj_own o' k
  end.

(** The registrations of [_registerControls]: the control's identifier, the
    identifier of its operation and the module of its class. *)
Definition default_controls : list (string * string * string) :=
  [ ("filters", "filters", "./controls/filters");
    ("rotation", "crop-rotation", "./controls/rotation");
    ("flip", "flip", "./controls/flip");
    ("brightness", "brightness", "./controls/brightness");
    ("contrast", "contrast", "./controls/contrast");
    ("saturation", "saturation", "./controls/saturation");
    ("crop", "crop-rotation", "./controls/crop");
    ("radial-blur", "radial-blur", "./controls/radial-blur");
    ("tilt-shift", "tilt-shift", "./controls/tilt-shift");
    ("frames", "frames", "./controls/frames");
    ("stickers", "stickers", "./controls/stickers");
    ("text", "text", "./controls/text") ].

Section Controls.

(** Control classes and DOM elements are opaque. *)
Context {Class Element : Type}.

(** The calls the UI makes on a control instance.  What a control does in
    them is code of the control classes: the calls are recorded, in order,
    and taken not to call back into the UI. *)
Inductive Call : Type :=
  | Enter (c : loc)
  | Leave (c : loc)
  | OnceBack (c : loc)  (* c.once("back", this._switchToOverview.bind(this)) *)
  | SetContainers (c : loc)
      (controlsContainer canvasControlsContainer : option Element)
  | Init (c : loc).

Record UI : Type := mkUI {
  control_heap : list Class;           (* the class of every control instance *)
  _registeredControls : list (string * loc);
  _currentControl : JSRef;
  _controlsContainer : option Element;        (* [None]: null or undefined *)
  _canvasControlsContainer : option Element;
  (* this._overviewControlsContainer.style.display, [None] when the
     container is null or undefined *)
  overview_display : option string;
  calls : list Call                    (* the calls on controls so far *)
}.

(** The UI that the constructor leaves. *)
Definition constructed : UI := mkUI [] [] JSUndefined None None None [].

(** [this.isOperationSelected], inherited from the base UI. *)
Variable isOperationSelected : string → bool.
(** The module loader. *)
Variable require : string → Class.
(** The names that the prototype chain of a plain object resolves. *)
Variable inherited : string → bool.
(** The order in which [for (k in o)] visits the own properties of [o]. *)
Variable enumerate : list (string * loc) → list string.

(** [new ControlClass(this._kit, this)] *)
Definition new_Control (ControlClass : Class) : M UI loc := λ ui,
  (Normal (length (control_heap ui)),
   mkUI (control_heap ui ++ [ControlClass]) (_registeredControls ui)
        (_currentControl ui) (_controlsContainer ui)
        (_canvasControlsContainer ui) (overview_display ui) (calls ui)).

(** [this._registeredControls[identifier] = instance] *)
Definition assign_registeredControls (identifier : string) (instance : loc)
    : M UI () :=
  modify (λ ui,
    mkUI (control_heap ui) (obj_set identifier instance (_registeredControls ui))
         (_currentControl ui) (_controlsContainer ui)
         (_canvasControlsContainer ui) (overview_display ui) (calls ui)).

(** [this._registeredControls[identifier]] *)
Definition lookup_registeredControls (identifier : string) (ui : UI) : JSRef :=
  match obj_own (_registeredControls ui) identifier with
  | Some c => ControlRef c
  | None => if inherited identifier then Inherited identifier else JSUndefined
  end.

(** [this._currentControl = v] *)
Definition assign_currentControl (v : JSRef) : M UI () :=
  modify (λ ui,
    mkUI (control_heap ui) (_registeredControls ui) v (_controlsContainer ui)
         (_canvasControlsContainer ui) (overview_display ui) (calls ui)).

(** [this._overviewControlsContainer.style.display = d] *)
Definition assign_overview_display (d : string) : M UI () := λ ui,
  match overview_display ui with
  | None => (Throw TypeError, ui)
  | Some _ =>
      (Normal (),
       mkUI (control_heap ui) (_registeredControls ui) (_currentControl ui)
            (_controlsContainer ui) (_canvasControlsContainer ui) (Some d)
            (calls ui))
  end.

(** [target.method(...)]: only a control has the methods the UI calls. *)
Definition call_method (target : JSRef) (method : loc → Call) : M UI () :=
  match target with
  | ControlRef c =>
      modify (λ ui,
        mkUI (control_heap ui) (_registeredControls ui) (_currentControl ui)
             (_controlsContainer ui) (_canvasControlsContainer ui)
             (overview_display ui) (calls ui ++ [method c]))
  | _ => throw TypeError
  end.

(** Registers the controls for an operation. *)
Definition registerControl (identifier operationIdentifier : string)
    (ControlClass : Class) : M UI () :=
  if negb (isOperationSelected operationIdentifier) then mret () (* return *)
  else
    instance ← new_Control ControlClass;
    assign_registeredControls identifier instance.

(** Registers all default operation controls. *)
Definition _registerControls : M UI () :=
  registerControl "filters" "filters" (require "./controls/filters") ;;
  registerControl "rotation" "crop-rotation" (require "./controls/rotation") ;;
  registerControl "flip" "flip" (require "./controls/flip") ;;
  registerControl "brightness" "brightness" (require "./controls/brightness") ;;
  registerControl "contrast" "contrast" (require "./controls/contrast") ;;
  registerControl "saturation" "saturation" (require "./controls/saturation") ;;
  registerControl "crop" "crop-rotation" (require "./controls/crop") ;;
  registerControl "radial-blur" "radial-blur" (require "./controls/radial-blur") ;;
  registerControl "tilt-shift" "tilt-shift" (require "./controls/tilt-shift") ;;
  registerControl "frames" "frames" (require "./controls/frames") ;;
  registerControl "stickers" "stickers" (require "./controls/stickers") ;;
  registerControl "text" "text" (require "./controls/text").

(** Gets called when an overview button has been clicked. *)
Definition _onOverviewButtonClick (identifier : string) : M UI () :=
  assign_overview_display "none" ;;
  ui ← get;
  (if truthy (_currentControl ui)
   then call_method (_currentControl ui) Leave
   else mret ()) ;;
  ui ← get;
  assign_currentControl (lookup_registeredControls identifier ui) ;;
  ui ← get;
  call_method (_currentControl ui) Enter ;;
  ui ← get;
  call_method (_currentControl ui) OnceBack.

(** Switches back to the overview controls. *)
Definition _switchToOverview : M UI () :=
  ui ← get;
  (if truthy (_currentControl ui)
   then call_method (_currentControl ui) Leave
   else mret ()) ;;
  assign_currentControl JSNull ;;
  assign_overview_display "".

(** One iteration of the loop of [_initControls]. *)
Definition initControl (identifier : string) : M UI () :=
  ui ← get;
  let control := lookup_registeredControls identifier ui in
  call_method control
    (λ c, SetContainers c (_controlsContainer ui) (_canvasControlsContainer ui)) ;;
  call_method control Init.

(** Initializes the registered controls. *)
Definition _initControls : M UI () :=
  ui ← get;
  for_of initControl (enumerate (_registeredControls ui)).

(** What happens to the UI once it runs: an overview button is clicked, or
    a "back" listener that [_onOverviewButtonClick] registered fires. *)
Inductive Action : Type :=
  | ClickOverview (identifier : string)
  | Back.

Definition handle (a : Action) : M UI () :=
  match a with
  | ClickOverview identifier => _onOverviewButtonClick identifier
  | Back => _switchToOverview
  end.

(** Events are handled one after the other; the exception that ends one
    handler does not keep the next event from being handled. *)
Definition handle_all (acts : list Action) (ui : UI) : UI :=
  foldl (λ ui a, (handle a ui).2) ui acts.

(** Reading a trace of calls: the control that is entered and not left, as
    long as [enter] and [leave] alternate on one control at a time. *)
Definition track (entered : option (option loc)) (call : Call)
    : option (option loc) :=
  match entered, call with
  | Some None, Enter c => Some (Some c)
  | Some (Some _), Enter _ => None
  | Some (Some c'), Leave c => if decide (c = c') then Some None else None
  | Some None, Leave _ => None
  | _, _ => entered
  end.

Definition entered (trace : list Call) : option (option loc) :=
  foldl track (Some None) trace.

(** The calls of a trace that concern the control [c]. *)
Definition target (call : Call) : loc :=
  match call with
  | Enter c | Leave c | OnceBack c | SetContainers c _ _ | Init c => c
  end.

Definition calls_on (c : loc) (trace : list Call) : list Call :=
  filter (λ call, target call = c) trace.

End Controls.

Arguments Call : clear implicits.
Arguments UI : clear implicits.

(** Runs a handler on a UI whose fields are known. *)
Ltac run_handler :=
  unfold handle, _onOverviewButtonClick, _switchToOverview, mbind, M_bind,
    mret, M_ret, get, assign_overview_display, assign_currentControl,
    call_method, lookup_registeredControls, modify, throw;
  simpl.

(** The registered controls agree with the trace: the entered control is
    the current one, and the overview is hidden while a control is entered. *)
Definition coherent {Class Element} (ui : UI Class Element) : Prop :=
  entered (calls ui) = Some (control_of (_currentControl ui)) ∧
  (is_Some (control_of (_currentControl ui)) →
   overview_display ui = Some "none").

End NightUIControls.

(** ** Counting the updates that reach the listener of the UI *)

Module NightUIUpdates.

Import NightUI.

(** Whether the instance [o] received an "update" event while the UI was
    not paused, [paused] being the flag before the events. *)
Fixpoint updated_unpaused (paused : bool) (o : loc) (es : list Event) : bool :=
  match es with
  | [] => false
  | Update o' :: es' =>
      (negb paused && bool_decide (o' = o)) || updated_unpaused paused o es'
  | SetPaused b :: es' => updated_unpaused b o es'
  | InitCanvas :: es' => updated_unpaused paused o es'
  end.

(** Every instance has the listener of the UI and no other. *)
Definition all_listening {Ctor} (st : State Ctor) : Prop :=
  ∀ o i, heap st !! o = Some i → update_listeners i = [NightUpdate o].

End NightUIUpdates.

(** ** A UI to run the controls on *)

Module NightUIControlsExamples.

Import NightUI NightUIControls.

(** The module path stands for the class, a
    selector for the element it finds, the prototype chain resolves the
    names of [Object.prototype], and the properties are visited in insertion
    order. *)
Definition example_inherited (name : string) : bool :=
  bool_decide (name ∈ ["constructor"; "hasOwnProperty"; "isPrototypeOf";
                       "propertyIsEnumerable"; "toLocaleString"; "toString";
                       "valueOf"; "__proto__"]).

Definition shown : UI string string :=
  mkUI [] [] JSUndefined (Some ".imglykit-controls")
       (Some ".imglykit-canvas-controls") (Some "") [].

Definition insertion_order (o : list (string * loc)) : list string := o.*1.

(** The session in which the user selected "crop-rotation" and "filters":
    after [_registerControls], and after a click on the "filters" button. *)
Definition chosen : string → bool := selected ["crop-rotation"; "filters"].

Definition registered : UI string string :=
  (_registerControls chosen (λ path, path) shown).2.

Definition filters_entered : UI string string :=
  (handle example_inherited (ClickOverview "filters") registered).2.

End NightUIControlsExamples.

(** * Verification *)

Section MonadFacts.

Context {S : Type}.

Lemma for_of_cons {A} (body : A → M S ()) x l s :
  for_of body (x :: l) s =
  match body x s with
  | (Normal _, s') => for_of body l s'
  | (Throw e, s') => (Throw e, s')
  end.
Proof. done. Qed.

End MonadFacts.

(** ** The Night UI *)

Section NightUIFacts.

Import NightUI NightUIPlan.

Context {Ctor : Type}.
Implicit Types (st : State Ctor) (reg : gmap string Ctor)
  (sel : string → bool) (l : list string) (p : list (string * Ctor)).

(** *** One iteration of the loop *)

Lemma initOperation_unselected reg sel identifier st :
  sel identifier = false →
  initOperation reg sel identifier st = (Normal (), st).
Proof. intros H. unfold initOperation. by rewrite H. Qed.

Lemma initOperation_unregistered reg sel identifier st :
  sel identifier = true → reg !! identifier = None →
  initOperation reg sel identifier st = (Throw TypeError, st).
Proof. intros H1 H2. unfold initOperation. by rewrite H1, H2. Qed.

Lemma update_last (h : list (OperationInstance Ctor)) x
    (f : OperationInstance Ctor → OperationInstance Ctor) :
  match (h ++ [x]) !! length h with
  | Some i => <[length h := f i]> (h ++ [x])
  | None => h ++ [x]
  end = h ++ [f x].
Proof.
  rewrite list_lookup_middle by done.
  rewrite insert_app_r_alt by done. by rewrite Nat.sub_diag.
Qed.

Lemma initOperation_selected reg sel identifier C st :
  sel identifier = true → reg !! identifier = Some C →
  initOperation reg sel identifier st = (Normal (), install st (identifier, C)).
Proof.
  intros H1 H2. unfold initOperation. rewrite H1, H2. simpl.
  destruct st as [h stk m pa n]. unfold install. simpl.
  unfold mbind, M_bind, new_Operation, assign_isIdentity, on_update,
    assign_operationsMap, push, modify, set_heap. simpl.
  rewrite (update_last h _ (λ i, mkOperation (op_identifier i) (op_class i)
                                   (Some true) (update_listeners i))).
  simpl.
  by rewrite (update_last h _ (λ i, mkOperation (op_identifier i) (op_class i)
    (isIdentity i) (update_listeners i ++ [NightUpdate (length h)]))).
Qed.

(** *** The whole loop *)

Lemma for_of_initOperation reg sel l st :
  for_of (initOperation reg sel) l st =
  (if (plan reg sel l).2 then Normal () else Throw TypeError,
   foldl install st (plan reg sel l).1).
Proof.
  revert st. induction l as [|identifier l IH]; intros st; [done|].
  rewrite for_of_cons. simpl.
  destruct (sel identifier) eqn:Hsel.
  - destruct (reg !! identifier) as [C|] eqn:Hreg.
    + rewrite (initOperation_selected _ _ _ C) by done. by rewrite IH.
    + by rewrite initOperation_unregistered.
  - rewrite initOperation_unselected by done. apply IH.
Qed.

(** *** The state after a sequence of complete iterations *)

Lemma installs_heap st p :
  heap (foldl install st p) = heap st ++ imap (fresh (length (heap st))) p.
Proof.
  induction p as [|q p IH] using rev_ind; simpl.
  - by rewrite app_nil_r.
  - rewrite foldl_snoc. simpl. rewrite IH, imap_app, app_assoc. simpl.
    by rewrite length_app, length_imap, Nat.add_0_r.
Qed.

Lemma installs_stack st p :
  operationsStack (foldl install st p) =
  operationsStack st ++ seq (length (heap st)) (length p).
Proof.
  induction p as [|q p IH] using rev_ind; simpl.
  - by rewrite app_nil_r.
  - rewrite foldl_snoc. simpl. rewrite IH, installs_heap.
    rewrite !length_app, length_imap. simpl.
    by rewrite seq_app, app_assoc.
Qed.

Lemma installs_lookup_new st p i :
  heap (foldl install st p) !! (length (heap st) + i) =
  fresh (length (heap st)) i <$> p !! i.
Proof.
  rewrite installs_heap, lookup_app_r by lia.
  replace (length (heap st) + i - length (heap st)) with i by lia.
  apply list_lookup_imap.
Qed.

Lemma installs_identifier_new st p i :
  identifier_at (foldl install st p) (length (heap st) + i) = fst <$> p !! i.
Proof.
  unfold identifier_at. rewrite installs_lookup_new.
  by destruct (p !! i).
Qed.

Lemma omap_seq_lookup {B} (f : nat → option B) (k : list B) base :
  (∀ i, f (base + i) = k !! i) → omap f (seq base (length k)) = k.
Proof.
  revert base. induction k as [|x k IH]; intros base Hf; [done|].
  simpl. specialize (Hf 0) as H0. rewrite Nat.add_0_r in H0. simpl in H0.
  rewrite H0. f_equal. apply IH. intros i.
  specialize (Hf (S i)). simpl in Hf. by rewrite <-Hf, Nat.add_succ_r.
Qed.

Lemma installs_new_identifiers st p :
  omap (identifier_at (foldl install st p))
       (seq (length (heap st)) (length p)) = p.*1.
Proof.
  rewrite <-(length_fmap fst p). apply omap_seq_lookup. intros i.
  by rewrite installs_identifier_new, list_lookup_fmap.
Qed.

Lemma installs_stack_identifiers st p :
  operationsStack st = [] →
  stack_identifiers (foldl install st p) = p.*1.
Proof.
  intros H. unfold stack_identifiers. rewrite installs_stack, H. simpl.
  apply installs_new_identifiers.
Qed.

Lemma installs_map_new st p i identifier C :
  NoDup p.*1 → p !! i = Some (identifier, C) →
  _operationsMap (foldl install st p) !! identifier =
  Some (length (heap st) + i).
Proof.
  revert i. induction p as [|q p IH] using rev_ind; intros i Hnd Hi; [done|].
  rewrite fmap_snoc in Hnd. apply NoDup_app in Hnd as (Hnd & Hq & _).
  rewrite foldl_snoc. simpl.
  rewrite installs_heap, length_app, length_imap.
  apply lookup_snoc_Some in Hi as [[Hlt Hi]| [-> ->]].
  - rewrite lookup_insert_ne; [by apply IH|].
    intros Heq. apply (Hq identifier).
    + apply (list_elem_of_fmap_2' fst _ (identifier, C)); [|done].
      by apply (list_elem_of_lookup_2 _ i).
    + rewrite <-Heq. apply list_elem_of_singleton. done.
  - simpl. by rewrite lookup_insert_eq.
Qed.

Lemma installs_map_inv st p identifier o :
  _operationsMap st = ∅ →
  _operationsMap (foldl install st p) !! identifier = Some o →
  ∃ i C, p !! i = Some (identifier, C) ∧ o = length (heap st) + i.
Proof.
  intros Hm. revert o. induction p as [|q p IH] using rev_ind; intros o.
  - simpl. by rewrite Hm, lookup_empty.
  - rewrite foldl_snoc. simpl.
    rewrite installs_heap, length_app, length_imap.
    intros [[Hq <-]|[Hq Ho]]%lookup_insert_Some.
    + exists (length p), q.2. split; [|done].
      rewrite <-Hq. destruct q. by apply list_lookup_middle.
    + destruct (IH _ Ho) as (i & C & Hi & ->).
      exists i, C. split; [|done]. by apply lookup_app_l_Some.
Qed.

(** *** The plan of a pass *)

Lemma plan_ids_sublist reg sel l : (plan reg sel l).1.*1 `sublist_of` l.
Proof.
  induction l as [|identifier l IH]; simpl; [done|].
  destruct (sel identifier).
  - destruct (reg !! identifier); simpl.
    + by apply sublist_skip.
    + apply sublist_nil_l.
  - by apply sublist_cons.
Qed.

Lemma plan_complete reg sel l :
  (∀ identifier, identifier ∈ l → sel identifier = true →
                 is_Some (reg !! identifier)) →
  (plan reg sel l).2 = true ∧
  (plan reg sel l).1.*1 = filter (λ identifier, sel identifier) l.
Proof.
  induction l as [|identifier l IH]; intros Hreg; [done|].
  destruct IH as [IH1 IH2].
  { intros x Hx. apply Hreg. by right. }
  simpl. destruct (sel identifier) eqn:Hsel.
  - destruct (Hreg identifier) as [C HC]; [by left|done|].
    rewrite HC. simpl. split; [done|].
    rewrite filter_cons_True by (by rewrite Hsel). by rewrite <-IH2.
  - split; [done|].
    rewrite filter_cons_False; [exact IH2|]. by apply Is_true_false_2.
Qed.

Lemma plan_stops reg sel l1 identifier l2 :
  (∀ x, x ∈ l1 → sel x = true → is_Some (reg !! x)) →
  sel identifier = true → reg !! identifier = None →
  (plan reg sel (l1 ++ identifier :: l2)).2 = false ∧
  (plan reg sel (l1 ++ identifier :: l2)).1.*1 = filter (λ x, sel x) l1.
Proof.
  intros Hreg Hsel Hnone. induction l1 as [|x l1 IH]; simpl.
  - by rewrite Hsel, Hnone.
  - destruct IH as [IH1 IH2].
    { intros y Hy. apply Hreg. by right. }
    destruct (sel x) eqn:Hx.
    + destruct (Hreg x) as [C HC]; [by left|done|].
      rewrite HC. simpl. split; [done|].
      rewrite filter_cons_True by (by rewrite Hx). by rewrite <-IH2.
    + split; [done|].
      rewrite filter_cons_False; [exact IH2|]. by apply Is_true_false_2.
Qed.

Lemma plan_ext reg reg' sel sel' l :
  (∀ x, x ∈ l → sel x = sel' x) →
  (∀ x, x ∈ l → sel x = true → reg !! x = reg' !! x) →
  plan reg sel l = plan reg' sel' l.
Proof.
  induction l as [|x l IH]; intros Hsel Hreg; [done|].
  simpl. rewrite <-(Hsel x) by (by left).
  rewrite IH.
  - destruct (sel x) eqn:Hx; [|done].
    by rewrite (Hreg x) by (done || by left).
  - intros y Hy. apply Hsel. by right.
  - intros y Hy. apply Hreg. by right.
Qed.

(** *** Order *)

Lemma StronglySorted_sublist {A} (R : relation A) (l1 l2 : list A) :
  l1 `sublist_of` l2 → StronglySorted R l2 → StronglySorted R l1.
Proof.
  induction 1 as [|x l1 l2 Hsub IH|x l1 l2 Hsub IH]; intros Hs.
  - constructor.
  - apply StronglySorted_inv in Hs as [Hs Hx]. constructor; [by apply IH|].
    apply Forall_forall. intros y Hy.
    rewrite Forall_forall in Hx. apply Hx. by eapply elem_of_sublist.
  - apply StronglySorted_inv in Hs as [Hs _]. by apply IH.
Qed.

Lemma StronglySorted_lookup {A} (R : relation A) (l : list A) i j a b :
  StronglySorted R l → i < j → l !! i = Some a → l !! j = Some b → R a b.
Proof.
  intros Hs. revert i j. induction Hs as [|x l Hs IH Hx]; intros i j Hij Hi Hj.
  - done.
  - destruct j as [|j]; [lia|]. simpl in Hj. destruct i as [|i].
    + simpl in Hi. injection Hi as ->.
      rewrite Forall_forall in Hx. apply Hx. by eapply list_elem_of_lookup_2.
    + simpl in Hi. apply (IH i j); [lia|done|done].
Qed.

Lemma preferred_by_group : StronglySorted by_group _preferredOperationOrder.
Proof. by apply (bool_decide_unpack _); vm_compute. Qed.

Lemma preferred_NoDup : NoDup _preferredOperationOrder.
Proof. by apply (bool_decide_unpack _); vm_compute. Qed.

Lemma selected_Permutation (active1 active2 : list string) identifier :
  active1 ≡ₚ active2 → selected active1 identifier = selected active2 identifier.
Proof. intros H. unfold selected. apply bool_decide_ext. by rewrite H. Qed.

Lemma filter_selected (active : list string) l :
  filter (λ identifier, selected active identifier) l =
  filter (λ identifier, identifier ∈ active) l.
Proof. apply list_filter_iff. intros x. apply bool_decide_spec. Qed.

(** *** Initialization *)

Lemma installs_pushed_identifiers st p :
  identifier_at (foldl install st p) <$> seq (length (heap st)) (length p)
  = Some <$> p.*1.
Proof.
  apply list_eq. intros i. rewrite !list_lookup_fmap.
  destruct (decide (i < length p)) as [Hlt|Hge].
  - destruct (lookup_lt_is_Some_2 p i Hlt) as [q Hq].
    rewrite lookup_seq_lt by done. simpl.
    by rewrite installs_identifier_new, Hq.
  - rewrite lookup_seq_ge by lia.
    by rewrite (lookup_ge_None_2 p i) by lia.
Qed.

(** C1: whatever the set of active operations and the order in which they
    were activated, initialization pushes the active operations of the list
    crop-rotation, flip, filters, contrast, brightness, saturation,
    radial-blur, tilt-shift, frames, stickers, text, each of them once, in
    the order of that list, and nothing else: on top of the stack it starts
    from, which for a fresh session is empty.  The stack is the same for
    every permutation of the activations, and an operation of an earlier
    group (geometry, then color, then post-processing) is never above one
    of a later group.  The active operations of the list need a registered
    constructor (C2 is about the others). *)
Theorem init_order reg (active1 active2 : list string) st :
  (∀ identifier, identifier ∈ _preferredOperationOrder →
                 identifier ∈ active1 → is_Some (reg !! identifier)) →
  active1 ≡ₚ active2 →
  let order :=
    ["crop-rotation"; "flip"; "filters"; "contrast"; "brightness";
     "saturation"; "radial-blur"; "tilt-shift"; "frames"; "stickers"; "text"] in
  let ids := filter (λ identifier, identifier ∈ active1) order in
  ∃ st' pushed,
    _initOperations reg (selected active1) st = (Normal (), st') ∧
    _initOperations reg (selected active2) st = (Normal (), st') ∧
    operationsStack st' = operationsStack st ++ pushed ∧
    identifier_at st' <$> pushed = Some <$> ids ∧
    (operationsStack st = [] → stack_identifiers st' = ids) ∧
    (∀ identifier, identifier ∈ ids ↔ identifier ∈ active1 ∧ identifier ∈ order) ∧
    ∀ i j a b, i < j → ids !! i = Some a → ids !! j = Some b → by_group a b.
Proof.
  intros Hreg Hperm order ids.
  assert (Horder : order = _preferredOperationOrder) by reflexivity.
  clearbody order. subst order.
  destruct (plan_complete reg (selected active1) _preferredOperationOrder)
    as [Hend Hids].
  { intros x Hx Hsel. apply Hreg; [done|].
    by apply bool_decide_eq_true in Hsel. }
  rewrite filter_selected in Hids. fold ids in Hids.
  set (p := (plan reg (selected active1) _preferredOperationOrder).1) in *.
  exists (foldl install st p), (seq (length (heap st)) (length p)).
  unfold _initOperations.
  split; [|split; [|split; [|split; [|split; [|split]]]]].
  - rewrite for_of_initOperation. fold p. by rewrite Hend.
  - rewrite for_of_initOperation.
    rewrite <-(plan_ext reg reg (selected active1) (selected active2)).
    + fold p. by rewrite Hend.
    + intros x _. by apply selected_Permutation.
    + done.
  - apply installs_stack.
  - by rewrite installs_pushed_identifiers, Hids.
  - intros Hstack. by rewrite installs_stack_identifiers, Hids.
  - intros identifier. unfold ids. rewrite list_elem_of_filter. done.
  - intros i j a b Hij. apply StronglySorted_lookup; [|done].
    apply (StronglySorted_sublist _ _ _preferredOperationOrder).
    + apply sublist_filter.
    + apply preferred_by_group.
Qed.

(** C9: after initialization of a fresh session no identifier has two
    instances: the stack holds every instance once, the identifiers of the
    instances on the stack are pairwise different, and the operations map
    sends an identifier to the one instance on the stack that has it. *)
Theorem one_instance_per_identifier reg sel st :
  operationsStack st = [] → _operationsMap st = ∅ →
  let st' := (_initOperations reg sel st).2 in
  NoDup (operationsStack st') ∧
  NoDup (stack_identifiers st') ∧
  ∀ identifier o,
    _operationsMap st' !! identifier = Some o ↔
    o ∈ operationsStack st' ∧ identifier_at st' o = Some identifier.
Proof.
  intros Hstack Hmap. unfold _initOperations.
  rewrite for_of_initOperation. cbv zeta. cbn [snd].
  set (p := (plan reg sel _preferredOperationOrder).1).
  assert (Hnd : NoDup p.*1).
  { apply (sublist_NoDup _ _preferredOperationOrder).
    - apply preferred_NoDup.
    - apply plan_ids_sublist. }
  split; [|split].
  - rewrite installs_stack, Hstack. apply NoDup_seq.
  - by rewrite installs_stack_identifiers.
  - intros identifier o. rewrite installs_stack, Hstack. simpl. split.
    + intros (i & C & Hi & ->)%installs_map_inv; [|done]. split.
      * apply elem_of_seq. apply lookup_lt_Some in Hi. lia.
      * by rewrite installs_identifier_new, Hi.
    + intros [[Hlo Hhi]%elem_of_seq Hid].
      replace o with (length (heap st) + (o - length (heap st))) in * by lia.
      rewrite installs_identifier_new in Hid.
      destruct (p !! (o - length (heap st))) as [[x C]|] eqn:Hp; [|done].
      injection Hid as ->. by apply (installs_map_new _ _ _ _ C).
Qed.

(** C2 (amended): when, in the fixed order, a selected identifier has no
    registered constructor, initialization throws at the first such
    identifier, and the operations instantiated before it in the same pass
    stay pushed on the stack and recorded in the operations map.
    Identifiers that are not selected are skipped without a lookup: the
    outcome is the same for every registry with the same constructors for
    the selected identifiers. *)
Theorem init_unregistered reg sel st l1 identifier l2 :
  _preferredOperationOrder = l1 ++ identifier :: l2 →
  (∀ x, x ∈ l1 → sel x = true → is_Some (reg !! x)) →
  sel identifier = true → reg !! identifier = None →
  ∃ st',
    _initOperations reg sel st = (Throw TypeError, st') ∧
    let before := filter (λ x, sel x) l1 in
    let pushed := seq (length (heap st)) (length before) in
    operationsStack st' = operationsStack st ++ pushed ∧
    omap (identifier_at st') pushed = before ∧
    (∀ i x, before !! i = Some x →
            _operationsMap st' !! x = Some (length (heap st) + i)) ∧
    ∀ reg', (∀ x, sel x = true → reg' !! x = reg !! x) →
            _initOperations reg' sel st = (Throw TypeError, st').
Proof.
  intros Hsplit Hreg Hsel Hnone.
  destruct (plan_stops reg sel l1 identifier l2) as [Hend Hids]; try done.
  rewrite <-Hsplit in Hend, Hids.
  set (p := (plan reg sel _preferredOperationOrder).1) in *.
  exists (foldl install st p). unfold _initOperations.
  rewrite for_of_initOperation. fold p. rewrite Hend.
  split; [done|]. cbv zeta. rewrite <-Hids, length_fmap.
  split; [apply installs_stack|].
  split; [apply installs_new_identifiers|].
  split.
  - intros i x Hi. rewrite list_lookup_fmap in Hi.
    destruct (p !! i) as [[y C]|] eqn:Hp; [|done].
    injection Hi as ->. apply (installs_map_new _ _ _ _ C); [|done].
    apply (sublist_NoDup _ _preferredOperationOrder).
    + apply preferred_NoDup.
    + apply plan_ids_sublist.
  - intros reg' Hreg'. rewrite for_of_initOperation.
    rewrite (plan_ext reg' reg sel sel); [|done|].
    + fold p. by rewrite Hend.
    + intros x _. apply Hreg'.
Qed.

(** *** Update events *)

Lemma run_events_cons (e : Event) (es : list Event) st :
  (run_events (e :: es) st).2 = (run_events es (step e st).2).2.
Proof.
  unfold run_events. simpl.
  generalize (step e st).1 (step e st).2 (@Normal () ()).
  induction es as [|e' es IH]; intros c1 s c2; [done|].
  simpl. apply IH.
Qed.

Lemma run_events_app (es1 es2 : list Event) st :
  (run_events (es1 ++ es2) st).2 = (run_events es2 (run_events es1 st).2).2.
Proof.
  revert st. induction es1 as [|e es1 IH]; intros st; [done|].
  rewrite <-app_comm_cons, !run_events_cons. apply IH.
Qed.

Lemma step_update st o :
  step (Update o) st =
  emit_update o (if _paused st then set_deferred true st else st).
Proof. done. Qed.

Lemma render_frame st :
  heap (render st).2 = heap st ∧
  operationsStack (render st).2 = operationsStack st ∧
  _operationsMap (render st).2 = _operationsMap st ∧
  _paused (render st).2 = _paused st ∧
  _canvas (render st).2 = _canvas st.
Proof. unfold render. destruct (_canvas st) eqn:Hc; simpl; by rewrite ?Hc. Qed.

Lemma unpause_frame st :
  heap (unpause st).2 = heap st ∧
  operationsStack (unpause st).2 = operationsStack st ∧
  _operationsMap (unpause st).2 = _operationsMap st ∧
  _paused (unpause st).2 = false ∧
  _canvas (unpause st).2 = _canvas st.
Proof.
  unfold unpause, mbind, M_bind, get, modify, render. simpl.
  destruct (deferred st); [|done]. simpl.
  destruct (_canvas st) eqn:Hc; simpl; by rewrite ?Hc.
Qed.

Lemma run_listener_paused st (l : Listener) :
  _paused st = true → run_listener l st = (Normal (), st).
Proof.
  intros H. destruct l as [o]. unfold run_listener, mbind, M_bind, get.
  by rewrite H.
Qed.

Lemma emit_update_paused st o :
  _paused st = true → emit_update o st = (Normal (), st).
Proof.
  intros H. unfold emit_update, mbind, M_bind, get.
  destruct (heap st !! o) as [i|]; [|done].
  induction (update_listeners i) as [|l ls IH]; [done|].
  by rewrite for_of_cons, run_listener_paused.
Qed.


Lemma listening_heap st st' o :
  heap st' = heap st → listening st o → listening st' o.
Proof. intros Hh. unfold listening. by rewrite Hh. Qed.

Lemma emit_update_listening st o :
  listening st o → _paused st = false →
  ∃ st', isIdentity_at st' o = Some false ∧
    match _canvas st with
    | Some _ => emit_update o st = (Normal (), st') ∧
                renders st' = S (renders st)
    | None => emit_update o st = (Throw TypeError, st') ∧
              renders st' = renders st
    end.
Proof.
  intros (i & Hi & Hl) Hp. unfold emit_update, mbind, M_bind, get.
  rewrite Hi, Hl. simpl.
  unfold mbind, M_bind, get, assign_isIdentity, render, modify, set_heap.
  rewrite Hp. simpl. rewrite Hi.
  assert (Hlt : o < length (heap st)) by (by eapply lookup_lt_Some).
  destruct (_canvas st); eexists; (split; [|done]);
    unfold isIdentity_at; simpl; by rewrite list_lookup_insert_eq.
Qed.

Lemma assign_isIdentity_listening st o' b o :
  listening st o → listening (assign_isIdentity o' b st).2 o.
Proof.
  intros (i & Hi & Hl). unfold assign_isIdentity, modify, set_heap. simpl.
  destruct (heap st !! o') as [i'|] eqn:Hi'; [|by exists i].
  destruct (decide (o' = o)) as [->|Hne].
  - rewrite Hi in Hi'. injection Hi' as <-.
    eexists. simpl.
    rewrite list_lookup_insert_eq by (by eapply lookup_lt_Some).
    done.
  - exists i. simpl. by rewrite list_lookup_insert_ne.
Qed.

Lemma run_listener_listening st (l : Listener) o :
  listening st o → listening (run_listener l st).2 o.
Proof.
  intros H. destruct l as [o']. unfold run_listener, mbind, M_bind, get.
  destruct (_paused st); [done|].
  apply (assign_isIdentity_listening st o' false) in H.
  destruct (assign_isIdentity o' false st) as [[[]|x] st1]; [|done].
  eapply listening_heap; [apply render_frame|done].
Qed.

Lemma listeners_listening (ls : list Listener) st o :
  listening st o → listening (for_of run_listener ls st).2 o.
Proof.
  revert st. induction ls as [|l ls IH]; intros st H; [done|].
  rewrite for_of_cons.
  apply (run_listener_listening st l) in H.
  destruct (run_listener l st) as [[[]|e] st1]; [|done]. by apply IH.
Qed.

Lemma emit_update_keeps_listening st o' o :
  listening st o → listening (emit_update o' st).2 o.
Proof.
  intros H. unfold emit_update, mbind, M_bind, get.
  destruct (heap st !! o') as [i|]; [|done]. by apply listeners_listening.
Qed.

Lemma step_listening st (e : Event) o :
  listening st o → listening (step e st).2 o.
Proof.
  intros H. destruct e as [o'|[]|].
  - rewrite step_update. apply emit_update_keeps_listening.
    by destruct (_paused st).
  - done.
  - eapply listening_heap; [apply unpause_frame|done].
  - done.
Qed.

Lemma run_events_listening (es : list Event) st o :
  listening st o → listening (run_events es st).2 o.
Proof.
  revert st. induction es as [|e es IH]; intros st H; [done|].
  rewrite run_events_cons. by apply IH, step_listening.
Qed.

Lemma init_listening reg sel st o :
  let st' := (_initOperations reg sel st).2 in
  length (heap st) ≤ o < length (heap st') →
  listening st' o ∧ isIdentity_at st' o = Some true.
Proof.
  unfold _initOperations. rewrite for_of_initOperation. cbv zeta. cbn [snd].
  set (p := (plan reg sel _preferredOperationOrder).1).
  rewrite installs_heap, length_app, length_imap. intros Ho.
  replace o with (length (heap st) + (o - length (heap st))) by lia.
  unfold listening, isIdentity_at. rewrite installs_lookup_new.
  destruct (lookup_lt_is_Some_2 p (o - length (heap st))) as [q ->]; [lia|].
  simpl. split; [|done]. by eexists.
Qed.

(** C4 (amended): every instance that initialization constructs has
    [isIdentity = true] when initialization ends.  From then on, whatever
    happened in between, an "update" event of that instance that is
    received while the UI is paused changes nothing and triggers nothing;
    received while the UI is not paused, it sets [isIdentity] to [false]
    and calls [render()], which triggers one re-render when the canvas
    exists and throws a TypeError, the flag being set, as long as
    [_initCanvas] has not run. *)
Theorem update_clears_identity reg sel st (es : list Event) o :
  let st1 := (_initOperations reg sel st).2 in
  let st2 := (run_events es st1).2 in
  length (heap st) ≤ o < length (heap st1) →
  isIdentity_at st1 o = Some true ∧
  if _paused st2 then emit_update o st2 = (Normal (), st2)
  else ∃ st3, isIdentity_at st3 o = Some false ∧
    match _canvas st2 with
    | Some _ => emit_update o st2 = (Normal (), st3) ∧
                renders st3 = S (renders st2)
    | None => emit_update o st2 = (Throw TypeError, st3) ∧
              renders st3 = renders st2
    end.
Proof.
  intros st1 st2 Ho.
  destruct (init_listening reg sel st o Ho) as [Hl Hid].
  split; [done|]. destruct (_paused st2) eqn:Hp.
  - by apply emit_update_paused.
  - apply emit_update_listening; [|done].
    by apply run_events_listening.
Qed.


End NightUIFacts.

Section NightUIExamplesFacts.

Import NightUI NightUIPlan NightUIExamples.

Lemma init_order_witness :
  let order :=
    ["crop-rotation"; "flip"; "filters"; "contrast"; "brightness";
     "saturation"; "radial-blur"; "tilt-shift"; "frames"; "stickers"; "text"] in
  let ids :=
    filter (λ identifier,
              identifier ∈ ["saturation"; "crop-rotation"; "filters"]) order in
  ∃ st' pushed,
    _initOperations registry
      (selected ["saturation"; "crop-rotation"; "filters"]) session
    = (Normal (), st') ∧
    _initOperations registry
      (selected ["filters"; "crop-rotation"; "saturation"]) session
    = (Normal (), st') ∧
    operationsStack st' = operationsStack session ++ pushed ∧
    identifier_at st' <$> pushed = Some <$> ids ∧
    (operationsStack session = [] → stack_identifiers st' = ids) ∧
    (∀ identifier,
       identifier ∈ ids ↔
       identifier ∈ ["saturation"; "crop-rotation"; "filters"] ∧
       identifier ∈ order) ∧
    ∀ i j a b, i < j → ids !! i = Some a → ids !! j = Some b → by_group a b.
Proof.
  apply (init_order registry ["saturation"; "crop-rotation"; "filters"]
           ["filters"; "crop-rotation"; "saturation"] session).
  - intros identifier Hin _.
    repeat (apply elem_of_cons in Hin as [->|Hin]);
      try (by vm_compute; eexists).
    by apply elem_of_nil in Hin.
  - by apply (bool_decide_unpack _); vm_compute.
Defined.

(** The example of the specification: "saturation" and "crop-rotation",
    then "filters". *)
Example init_order_example :
  stack_identifiers
    (_initOperations registry
       (selected ["saturation"; "crop-rotation"; "filters"]) session).2
  = ["crop-rotation"; "filters"; "saturation"].
Proof. by vm_compute. Qed.

Lemma one_instance_per_identifier_witness :
  let st' :=
    (_initOperations registry (selected ["text"; "filters"; "flip"]) session).2 in
  NoDup (operationsStack st') ∧
  NoDup (stack_identifiers st') ∧
  ∀ identifier o,
    _operationsMap st' !! identifier = Some o ↔
    o ∈ operationsStack st' ∧ identifier_at st' o = Some identifier.
Proof.
  apply (one_instance_per_identifier registry
           (selected ["text"; "filters"; "flip"]) session);
    reflexivity.
Defined.

(** C2, as stated, fails: "flip" is requested and has no constructor;
    initialization throws, and the "crop-rotation" operation that the same
    pass instantiated before is still on the stack. *)
Lemma init_unregistered_counterexample :
  let reg := delete "flip" registry in
  let active := ["crop-rotation"; "flip"] in
  (∃ identifier, identifier ∈ active ∧ reg !! identifier = None) ∧
  ¬ ∃ e st',
      _initOperations reg (selected active) session = (Throw e, st') ∧
      operationsStack st' = operationsStack session.
Proof.
  split.
  - exists "flip". split; [by apply (bool_decide_unpack _); vm_compute|].
    by vm_compute.
  - intros (e & st' & Hrun & Hstack).
    assert (Hpushed : operationsStack
        (_initOperations (delete "flip" registry)
           (selected ["crop-rotation"; "flip"]) session).2 = [0])
      by (by vm_compute).
    rewrite Hrun in Hpushed. simpl in Hpushed.
    rewrite Hpushed in Hstack. discriminate Hstack.
Qed.

Lemma init_unregistered_witness :
  ∃ st',
    _initOperations (delete "flip" registry)
      (selected ["crop-rotation"; "flip"; "filters"]) session
    = (Throw TypeError, st') ∧
    let before :=
      filter (λ x, selected ["crop-rotation"; "flip"; "filters"] x)
             ["crop-rotation"] in
    let pushed := seq (length (heap session)) (length before) in
    operationsStack st' = operationsStack session ++ pushed ∧
    omap (identifier_at st') pushed = before ∧
    (∀ i x, before !! i = Some x →
            _operationsMap st' !! x = Some (length (heap session) + i)) ∧
    ∀ reg', (∀ x, selected ["crop-rotation"; "flip"; "filters"] x = true →
                  reg' !! x = delete "flip" registry !! x) →
            _initOperations reg'
              (selected ["crop-rotation"; "flip"; "filters"]) session
            = (Throw TypeError, st').
Proof.
  apply (init_unregistered (delete "flip" registry)
           (selected ["crop-rotation"; "flip"; "filters"]) session
           ["crop-rotation"] "flip"
           ["filters"; "contrast"; "brightness"; "saturation"; "radial-blur";
            "tilt-shift"; "frames"; "stickers"; "text"]).
  - reflexivity.
  - intros x Hin _.
    repeat (apply elem_of_cons in Hin as [->|Hin]);
      try (by vm_compute; eexists).
    by apply elem_of_nil in Hin.
  - by vm_compute.
  - by vm_compute.
Defined.

(** C4, as stated, fails: an "update" event that arrives while the UI is
    paused leaves [isIdentity] at [true] and triggers no re-render. *)
Lemma update_clears_identity_counterexample :
  let st := (_initOperations registry (selected ["filters"]) session).2 in
  let st' := (run_events [SetPaused true; Update 0] st).2 in
  isIdentity_at st 0 = Some true ∧
  isIdentity_at st' 0 = Some true ∧
  renders st' = renders st ∧
  ¬ (isIdentity_at st' 0 = Some false ∧ renders st' = S (renders st)).
Proof.
  repeat split; try (by vm_compute).
  intros [H _]. by vm_compute in H.
Qed.

Lemma update_clears_identity_witness :
  let st1 := (_initOperations registry (selected ["filters"]) session).2 in
  let st2 :=
    (run_events [InitCanvas; SetPaused true; Update 0; SetPaused false] st1).2 in
  isIdentity_at st1 0 = Some true ∧
  ∃ st3, isIdentity_at st3 0 = Some false ∧
         emit_update 0 st2 = (Normal (), st3) ∧
         renders st3 = S (renders st2).
Proof.
  apply (update_clears_identity registry (selected ["filters"]) session
           [InitCanvas; SetPaused true; Update 0; SetPaused false] 0).
  vm_compute. lia.
Defined.


End NightUIExamplesFacts.

(** ** The filter variants *)

Section VariantFacts.

Import Filter.

Context {S Stack Renderer : Type} `{!FilterLib S Stack Renderer}.

Lemma OrchidFilter_render_completion (renderer : Renderer) (s : S) :
  (OrchidFilter_render renderer s).1 = Normal undefined ∨
  ∃ e, (OrchidFilter_render renderer s).1 = Throw e.
Proof.
  unfold OrchidFilter_render, mbind, M_bind, mret, M_ret.
  step_calls; eauto.
Qed.

Lemma FixieFilter_render_completion (renderer : Renderer) (s : S) :
  (FixieFilter_render renderer s).1 = Normal undefined ∨
  ∃ e, (FixieFilter_render renderer s).1 = Throw e.
Proof.
  unfold FixieFilter_render, mbind, M_bind, mret, M_ret.
  step_calls; eauto.
Qed.

End VariantFacts.

(** ** The variants on the model of the primitives stack *)

Section PipelineFacts.

Import Filter ToneCurveModel PipelineModel.

Context {Pixels : Type} `{!RendererImpl Pixels}.

Implicit Types (w : World Pixels) (ps : list Primitive).

Lemma stack_new_spec w :
  stack_new w =
  (Normal (length (stacks w)), mkWorld (stacks w ++ [[]]) (output w)).
Proof. done. Qed.

Lemma stack_add_last (l : list (list Primitive)) ps p (out : nat → Pixels) :
  stack_add (length l) p (mkWorld (l ++ [ps]) out) =
  (Normal undefined, mkWorld (l ++ [ps ++ [p]]) out).
Proof.
  unfold stack_add. simpl. rewrite list_lookup_middle by done.
  rewrite insert_app_r_alt by done. by rewrite Nat.sub_diag.
Qed.

Lemma stack_render_last (l : list (list Primitive)) ps renderer
    (out : nat → Pixels) :
  stack_render (length l) renderer (mkWorld (l ++ [ps]) out) =
  (Normal (promise true),
   mkWorld (l ++ [ps])
           (write renderer (run_primitives ps (out renderer)) out)).
Proof. unfold stack_render. simpl. by rewrite list_lookup_middle. Qed.

Lemma OrchidFilter_render_model renderer w :
  OrchidFilter_render renderer w =
  (Normal undefined,
   let ps := [ToneCurve (rgbControlPoints OrchidFilter_rgbControlPoints);
              ToneCurve (controlPoints OrchidFilter_controlPoints);
              Desaturation OrchidFilter_desaturation] in
   mkWorld (stacks w ++ [ps])
     (write renderer
        (run_primitives ps (output w renderer))
        (output w))).
Proof.
  unfold OrchidFilter_render. simpl.
  unfold mbind, M_bind, mret, M_ret. rewrite stack_new_spec.
  unfold tonecurve_new, desaturation_new. simpl.
  unfold mret, M_ret.
  do 3 (rewrite stack_add_last; cbv beta iota).
  by rewrite stack_render_last.
Qed.

Lemma FixieFilter_render_model renderer w :
  FixieFilter_render renderer w =
  (Normal undefined,
   let ps := [ToneCurve (rgbControlPoints FixieFilter_rgbControlPoints)] in
   mkWorld (stacks w ++ [ps])
     (write renderer
        (run_primitives ps (output w renderer))
        (output w))).
Proof.
  unfold FixieFilter_render. simpl.
  unfold mbind, M_bind, mret, M_ret. rewrite stack_new_spec.
  unfold tonecurve_new. simpl. unfold mret, M_ret.
  rewrite stack_add_last; cbv beta iota.
  by rewrite stack_render_last.
Qed.

(** C5: the render of "orchid" builds a stack of exactly three primitives,
    an RGB per-channel tone curve, then a single greyscale tone curve, then
    a desaturation of 0.65, and the render of "fixie" a stack of exactly
    one RGB per-channel tone curve; the renderer's output afterwards is
    the result of the passes in that order, each over the output of the
    one before. *)
Theorem variants_build_their_stacks renderer w :
  OrchidFilter_render renderer w =
    (Normal undefined,
     mkWorld
       (stacks w ++
          [[ToneCurve (rgbControlPoints OrchidFilter_rgbControlPoints);
            ToneCurve (controlPoints OrchidFilter_controlPoints);
            Desaturation {| desaturation := 0.65 |}]])
       (write renderer
          (renderPrimitive (Desaturation {| desaturation := 0.65 |})
             (renderPrimitive
                (ToneCurve (controlPoints OrchidFilter_controlPoints))
                (renderPrimitive
                   (ToneCurve (rgbControlPoints OrchidFilter_rgbControlPoints))
                   (output w renderer))))
          (output w))) ∧
  FixieFilter_render renderer w =
    (Normal undefined,
     mkWorld
       (stacks w ++
          [[ToneCurve (rgbControlPoints FixieFilter_rgbControlPoints)]])
       (write renderer
          (renderPrimitive
             (ToneCurve (rgbControlPoints FixieFilter_rgbControlPoints))
             (output w renderer))
          (output w))).
Proof.
  split.
  - by rewrite OrchidFilter_render_model.
  - by rewrite FixieFilter_render_model.
Qed.

Lemma render_model (f : FilterKind) renderer w :
  render f renderer w =
  (Normal undefined,
   mkWorld (stacks w ++ [built f])
     (write renderer
        (run_primitives (built f) (output w renderer))
        (output w))).
Proof.
  destruct f; simpl.
  - apply OrchidFilter_render_model.
  - apply FixieFilter_render_model.
Qed.

Lemma built_toneCurves (f : FilterKind) : toneCurves_of (built f) = toneCurves f.
Proof. by destruct f. Qed.

(** C8: every control-point list of the tone curves that "orchid" and
    "fixie" construct has at least 2 points, strictly increasing input
    levels and all levels in 0..255; the tone curves on the stack a render
    builds are these, and the render completes without the configuration
    error of a malformed tone curve. *)
Theorem control_points_valid (f : FilterKind) renderer w :
  Forall (λ o, Forall (λ pts, valid_control_points pts = true) (channels o))
         (toneCurves f) ∧
  (render f renderer w).1 = Normal undefined ∧
  ∃ ps, stacks (render f renderer w).2 = stacks w ++ [ps] ∧
        toneCurves_of ps = toneCurves f.
Proof.
  split; [|split].
  - destruct f; repeat constructor.
  - by rewrite render_model.
  - rewrite render_model. exists (built f). split; [done|].
    apply built_toneCurves.
Qed.

End PipelineFacts.

Section ReturnValue.

Import Filter PipelineModel.

(** C10: the render functions of both variants return [undefined].  With
    whatever implementation of the primitives stack and the primitives, a
    render that completes returns [undefined] and never the value of
    [stack.render(renderer)]: its completion is [undefined] or the throw of
    one of its calls.  On the model of the primitives stack it completes,
    for every renderer argument. *)
Theorem render_returns_undefined :
  (∀ (S Stack Renderer : Type) (lib : FilterLib S Stack Renderer)
     (f : FilterKind) (renderer : Renderer) (s : S),
      (render f renderer s).1 = Normal undefined ∨
      ∃ e, (render f renderer s).1 = Throw e) ∧
  (∀ (Pixels : Type) (R : RendererImpl Pixels)
     (f : FilterKind) (renderer : nat) (w : World Pixels),
      (render f renderer w).1 = Normal undefined).
Proof.
  split.
  - intros S Stack Renderer lib [] renderer s.
    + apply OrchidFilter_render_completion.
    + apply FixieFilter_render_completion.
  - intros Pixels R f renderer w.
    by rewrite render_model.
Qed.

End ReturnValue.

(** ** The tone curve *)

Section ToneCurveFacts.

Import Filter ToneCurveModel.

Implicit Types (p : ControlPoint) (pts : list ControlPoint).

Lemma inject_Z_nonzero (z : Z) : z ≠ 0%Z → ¬ (inject_Z z == 0)%Q.
Proof. intros Hz H. unfold Qeq in H. simpl in H. lia. Qed.

(** A Hermite segment ends in its right control point. *)
Lemma hermite_right p0 p1 (m0 m1 : Q) :
  (p0.1 < p1.1)%Z → (hermite p0 p1 m0 m1 p1.1 == inject_Z p1.2)%Q.
Proof.
  intros Hlt. unfold hermite.
  assert (Hh : ¬ (inject_Z (p1.1 - p0.1) == 0)%Q)
    by (apply inject_Z_nonzero; lia).
  generalize dependent (inject_Z (p1.1 - p0.1)). intros h Hh.
  field. done.
Qed.

Lemma strictly_increasing_cons (x : Z) (xs : list Z) :
  strictly_increasing (x :: xs) = true →
  Forall (λ y, (x < y)%Z) xs ∧ strictly_increasing xs = true.
Proof.
  revert x. induction xs as [|y xs IH]; intros x H; [by split|].
  simpl in H. apply andb_true_iff in H as [Hxy Hrest].
  apply Z.ltb_lt in Hxy. split; [|done].
  destruct (IH y Hrest) as [Hall _]. constructor; [done|].
  eapply Forall_impl; [exact Hall|]. simpl. intros z Hz. lia.
Qed.

Lemma spline_at_knot (knots : list (ControlPoint * Q)) p0 (m0 : Q) p :
  strictly_increasing (p0.1 :: knots.*1.*1) = true →
  p ∈ knots.*1 →
  (spline ((p0, m0) :: knots) p.1 == inject_Z p.2)%Q.
Proof.
  revert p0 m0. induction knots as [|[p1 m1] knots IH]; intros p0 m0 Hinc Hin.
  - by apply elem_of_nil in Hin.
  - apply strictly_increasing_cons in Hinc as [Hall Hinc].
    rewrite fmap_cons in Hin. apply elem_of_cons in Hin as [->|Hin].
    + cbn [spline]. simpl. rewrite Z.leb_refl.
      apply hermite_right. by apply Forall_cons in Hall as [? _].
    + pose proof (strictly_increasing_cons _ _ Hinc) as [Hall1 _].
      assert (Hlt : (p1.1 < p.1)%Z).
      { rewrite Forall_forall in Hall1. apply Hall1.
        by apply (list_elem_of_fmap_2 fst). }
      change (spline ((p0, m0) :: (p1, m1) :: knots) p.1)
        with (if (p.1 <=? p1.1)%Z then hermite p0 p1 m0 m1 p.1
              else spline ((p1, m1) :: knots) p.1).
      rewrite (proj2 (Z.leb_gt _ _)) by done.
      by apply IH.
Qed.


Lemma tangents_length (prev : ControlPoint) pts :
  length (tangents prev pts) = length pts.
Proof.
  revert prev. induction pts as [|p pts IH]; intros prev; [done|].
  simpl. by rewrite IH.
Qed.

Lemma curve_at_control_point pts p :
  strictly_increasing pts.*1 = true → p ∈ pts →
  (curve catmull_rom pts p.1 == inject_Z p.2)%Q.
Proof.
  intros Hinc Hin. destruct pts as [|p0 rest]; [by apply elem_of_nil in Hin|].
  unfold curve. apply elem_of_cons in Hin as [->|Hin].
  - by rewrite Z.leb_refl.
  - rewrite fmap_cons in Hinc.
    pose proof (strictly_increasing_cons _ _ Hinc) as [Hall _].
    assert (Hlt : (p0.1 < p.1)%Z).
    { rewrite Forall_forall in Hall. apply Hall.
      by apply (list_elem_of_fmap_2 fst). }
    rewrite (proj2 (Z.leb_gt _ _)) by done.
    change (catmull_rom (p0 :: rest)) with (tangents p0 (p0 :: rest)).
    cbn [tangents zip zip_with].
    assert (Hfst : (zip rest (tangents p0 rest)).*1 = rest)
      by (apply fst_zip; by rewrite tangents_length).
    apply spline_at_knot; by rewrite Hfst.
Qed.

Lemma round_inject_Z (y : Z) : round (inject_Z y) = y.
Proof.
  unfold round, Qfloor, Qplus, inject_Z. simpl.
  symmetry. apply (Z.div_unique _ _ _ 1); lia.
Qed.

Lemma clamp_level (y : Z) : is_level y = true → clamp y = y.
Proof.
  unfold is_level, clamp. intros [H1 H2]%andb_true_iff.
  apply Z.leb_le in H1, H2. lia.
Qed.

Lemma valid_control_points_elem pts p :
  valid_control_points pts = true → p ∈ pts →
  strictly_increasing pts.*1 = true ∧ is_level p.1 = true ∧ is_level p.2 = true.
Proof.
  unfold valid_control_points, well_formed.
  intros [[_ Hinc]%andb_true_iff Hall]%andb_true_iff Hin.
  split; [done|].
  rewrite forallb_forall in Hall. apply andb_true_iff, Hall.
  by apply list_elem_of_In.
Qed.

Lemma level_at_control_point pts p :
  valid_control_points pts = true → p ∈ pts → level_at pts p.1 = p.2.
Proof.
  intros Hvalid Hin.
  destruct (valid_control_points_elem pts p Hvalid Hin) as (Hinc & _ & Hy).
  unfold level_at.
  assert (Hround : round (curve catmull_rom pts p.1) = round (inject_Z p.2)).
  { unfold round. apply Qfloor_comp.
    by rewrite (curve_at_control_point pts p Hinc Hin). }
  rewrite Hround, round_inject_Z. by apply clamp_level.
Qed.

Lemma lookupTable_lookup pts (x : Z) :
  (0 ≤ x < 256)%Z → lookupTable pts !! Z.to_nat x = Some (level_at pts x).
Proof.
  intros Hx. unfold lookupTable. rewrite list_lookup_fmap.
  rewrite (lookup_seqZ_lt 0 256 (Z.to_nat x)) by lia.
  simpl. f_equal. f_equal. lia.
Qed.

(** For all valid control points, the lookup table passes exactly through
    each control point. *)
Lemma lookupTable_passes_through pts p :
  valid_control_points pts = true → p ∈ pts →
  lookupTable pts !! Z.to_nat p.1 = Some p.2.
Proof.
  intros Hvalid Hin.
  destruct (valid_control_points_elem pts p Hvalid Hin) as (_ & Hx & _).
  unfold is_level in Hx. apply andb_true_iff in Hx as [H1 H2].
  apply Z.leb_le in H1, H2.
  rewrite lookupTable_lookup by lia.
  by rewrite level_at_control_point.
Qed.

Lemma lookupTable_length pts : length (lookupTable pts) = 256.
Proof. unfold lookupTable. by rewrite length_fmap, length_seqZ. Qed.

(** C6: the lookup table of the red channel of "fixie" has 256 entries and
    passes exactly through each of its control points, (63,48) and
    (128,132) among them, so that level 128 maps to 132 and every pixel of
    a solid mid-gray image gets the red level 132. *)
Theorem fixie_red_passes_through_control_points :
  let points := red FixieFilter_rgbControlPoints in
  let table := lookupTable points in
  ((63, 48)%Z ∈ points ∧ (128, 132)%Z ∈ points) ∧
  length table = 256 ∧
  lookup table 128 = 132%Z ∧
  Forall (λ p, table !! Z.to_nat p.1 = Some p.2) points ∧
  ∀ (n : nat) (alpha : Z),
    Forall (λ px : Pixel, px.1.1.1 = 132%Z)
      (apply_image (rgbControlPoints FixieFilter_rgbControlPoints)
         (replicate n (128, 128, 128, alpha)%Z)).
Proof.
  intros points table.
  assert (Hvalid : valid_control_points points = true) by reflexivity.
  assert (Hin : (128, 132)%Z ∈ points)
    by (by apply (bool_decide_unpack _); vm_compute).
  assert (H128 : lookup table 128 = 132%Z).
  { pose proof (lookupTable_passes_through points (128, 132)%Z Hvalid Hin)
      as Hpass.
    unfold lookup, table. cbn [fst snd] in Hpass. by rewrite Hpass. }
  split; [|split; [|split; [|split]]].
  - split; [|done]. by apply (bool_decide_unpack _); vm_compute.
  - apply lookupTable_length.
  - done.
  - apply Forall_forall. intros p Hp.
    by apply lookupTable_passes_through.
  - intros n alpha. unfold apply_image. apply Forall_fmap, Forall_replicate.
    simpl. exact H128.
Qed.

End ToneCurveFacts.

(** * More of the Night UI *)

(** ** Initialization and update events, continued *)

Section NightUIUpdateFacts.

Import NightUI NightUIPlan NightUIUpdates.

Context {Ctor : Type}.
Implicit Types (st : State Ctor) (reg : gmap string Ctor)
  (sel : string → bool) (p : list (string * Ctor)) (es : list Event).

Lemma installs_frame st p :
  _paused (foldl install st p) = _paused st ∧
  renders (foldl install st p) = renders st.
Proof.
  induction p as [|q p IH] using rev_ind; [done|].
  by rewrite foldl_snoc.
Qed.

(** X1: initialization triggers no re-render and does not touch the paused
    flag, and it only adds: the instances and the stack entries that existed
    stay where they were, whether the pass completes or throws. *)
Theorem init_only_adds reg sel st :
  let st' := (_initOperations reg sel st).2 in
  renders st' = renders st ∧
  _paused st' = _paused st ∧
  heap st `prefix_of` heap st' ∧
  operationsStack st `prefix_of` operationsStack st'.
Proof.
  unfold _initOperations. rewrite for_of_initOperation. cbv zeta. cbn [snd].
  destruct (installs_frame st (plan reg sel _preferredOperationOrder).1)
    as [Hp Hr].
  repeat split; [done|done| |].
  - rewrite installs_heap. by apply prefix_app_r.
  - rewrite installs_stack. by apply prefix_app_r.
Qed.

Lemma init_all_listening reg sel st :
  heap st = [] → all_listening (_initOperations reg sel st).2.
Proof.
  intros Hheap o i. unfold _initOperations.
  rewrite for_of_initOperation. cbn [snd].
  rewrite installs_heap, Hheap, app_nil_l, list_lookup_imap.
  by intros (q & _ & ->)%fmap_Some.
Qed.

Lemma emit_update_missing st o :
  heap st !! o = None → emit_update o st = (Normal (), st).
Proof. intros H. unfold emit_update, mbind, M_bind, get. by rewrite H. Qed.

Lemma emit_update_unpaused st o i :
  heap st !! o = Some i → update_listeners i = [NightUpdate o] →
  _paused st = false →
  let h := <[o := mkOperation (op_identifier i) (op_class i) (Some false)
                              (update_listeners i)]> (heap st) in
  emit_update o st =
  match _canvas st with
  | Some c =>
      (Normal (),
       mkState h (operationsStack st) (_operationsMap st) false
               (S (renders st)) (Some c) (deferred st))
  | None =>
      (Throw TypeError,
       mkState h (operationsStack st) (_operationsMap st) false
               (renders st) None (deferred st))
  end.
Proof.
  intros Hi Hl Hp. unfold emit_update, mbind, M_bind, get.
  rewrite Hi, Hl. simpl.
  unfold mbind, M_bind, get, assign_isIdentity, render, modify, set_heap.
  rewrite Hp. simpl. rewrite Hi, Hp. simpl. rewrite Hl.
  by destruct (_canvas st).
Qed.

Lemma all_listening_insert st o i b :
  all_listening st → heap st !! o = Some i → ∀ st',
  heap st' = <[o := mkOperation (op_identifier i) (op_class i) b
                                (update_listeners i)]> (heap st) →
  all_listening st'.
Proof.
  intros Hall Hi st' Hh o' i'. rewrite Hh.
  assert (Hlt : o < length (heap st)) by (by eapply lookup_lt_Some).
  destruct (decide (o' = o)) as [->|Hne].
  - rewrite list_lookup_insert_eq by done. intros [= <-]. simpl.
    by apply Hall.
  - rewrite list_lookup_insert_ne by done. apply Hall.
Qed.

Lemma all_listening_heap st st' :
  heap st' = heap st → all_listening st → all_listening st'.
Proof. intros Hh. unfold all_listening. by rewrite Hh. Qed.

Lemma isIdentity_at_heap st st' o :
  heap st' = heap st → isIdentity_at st' o = isIdentity_at st o.
Proof. intros Hh. unfold isIdentity_at. by rewrite Hh. Qed.

(** What one "update" event does to the instances when every instance
    listens. *)
Lemma emit_update_all_listening st o :
  all_listening st →
  let st' := (emit_update o st).2 in
  all_listening st' ∧
  length (heap st') = length (heap st) ∧
  _paused st' = _paused st ∧
  ∀ o', o' < length (heap st) →
    isIdentity_at st' o' =
    if negb (_paused st) && bool_decide (o = o') then Some false
    else isIdentity_at st o'.
Proof.
  intros Hall. cbv zeta. destruct (heap st !! o) as [i|] eqn:Hi.
  - assert (Hlt : o < length (heap st)) by (by eapply lookup_lt_Some).
    destruct (_paused st) eqn:Hp.
    + by rewrite emit_update_paused by done.
    + pose proof (emit_update_unpaused st o i Hi (Hall o i Hi) Hp) as He.
      cbv zeta in He. rewrite He. clear He.
      assert (∀ st', heap st' = <[o := mkOperation (op_identifier i)
                 (op_class i) (Some false) (update_listeners i)]> (heap st) →
               _paused st' = false →
               all_listening st' ∧
               length (heap st') = length (heap st) ∧
               _paused st' = false ∧
               ∀ o', o' < length (heap st) →
                 isIdentity_at st' o' =
                 if negb false && bool_decide (o = o') then Some false
                 else isIdentity_at st o') as Hgen.
      { intros st' Hh Hp'. split; [by eapply all_listening_insert|].
        split; [by rewrite Hh, length_insert|]. split; [done|].
        intros o' Ho'. unfold isIdentity_at. rewrite Hh. simpl.
        destruct (decide (o = o')) as [->|Hne].
        - rewrite bool_decide_eq_true_2 by done.
          by rewrite list_lookup_insert_eq.
        - rewrite bool_decide_eq_false_2 by done.
          by rewrite list_lookup_insert_ne. }
      destruct (_canvas st); by apply Hgen.
  - rewrite emit_update_missing by done.
    split; [done|]. split; [done|]. split; [done|].
    intros o' Ho'. apply lookup_ge_None in Hi.
    rewrite (bool_decide_eq_false_2 (o = o')) by lia.
    by rewrite andb_false_r.
Qed.

(** What one event does to the instances when every instance listens. *)
Lemma step_all_listening st (e : Event) :
  all_listening st →
  let st' := (step e st).2 in
  all_listening st' ∧
  length (heap st') = length (heap st) ∧
  _paused st' = match e with SetPaused b => b | _ => _paused st end ∧
  ∀ o, o < length (heap st) →
    isIdentity_at st' o =
    if updated_unpaused (_paused st) o [e] then Some false
    else isIdentity_at st o.
Proof.
  intros Hall. cbv zeta. destruct e as [o|[]|].
  - rewrite step_update.
    set (st0 := if _paused st then set_deferred true st else st).
    assert (Hh : heap st0 = heap st) by (unfold st0; by destruct (_paused st)).
    assert (Hp : _paused st0 = _paused st)
      by (unfold st0; by destruct (_paused st) eqn:E).
    destruct (emit_update_all_listening st0 o) as (H1 & H2 & H3 & H4).
    { by apply (all_listening_heap st). }
    rewrite Hh in H2, H4. rewrite Hp in H3, H4.
    split; [done|]. split; [done|]. split; [done|].
    intros o' Ho'. rewrite H4 by done. simpl. rewrite orb_false_r.
    rewrite (isIdentity_at_heap st st0) by done.
    destruct (negb (_paused st)); simpl; [|done].
    destruct (decide (o = o')) as [->|Hne].
    + by rewrite !bool_decide_eq_true_2.
    + by rewrite !bool_decide_eq_false_2.
  - done.
  - change (step (SetPaused false) st) with (unpause st).
    destruct (unpause_frame st) as (Hh & _ & _ & Hp & _).
    split; [by apply (all_listening_heap st)|].
    split; [by rewrite Hh|]. split; [done|].
    intros o Ho. by apply isIdentity_at_heap.
  - done.
Qed.

Lemma run_events_all_listening es st :
  all_listening st →
  let st' := (run_events es st).2 in
  all_listening st' ∧
  length (heap st') = length (heap st) ∧
  ∀ o, o < length (heap st) →
    isIdentity_at st' o =
    if updated_unpaused (_paused st) o es then Some false
    else isIdentity_at st o.
Proof.
  revert st. induction es as [|e es IH]; intros st Hall; [done|].
  cbv zeta. rewrite run_events_cons.
  destruct (step_all_listening st e Hall) as (Hall1 & Hlen1 & Hp1 & Hi1).
  destruct (IH _ Hall1) as (Hall2 & Hlen2 & Hi2).
  split; [done|]. split; [congruence|].
  rewrite Hlen1, Hp1 in Hi2.
  intros o Ho. rewrite Hi2, Hi1 by done.
  destruct e as [o'|b|]; simpl.
  - rewrite orb_false_r.
    destruct (negb (_paused st) && bool_decide (o' = o)); simpl; [|done].
    by destruct (updated_unpaused _ _ _).
  - done.
  - done.
Qed.

Lemma emit_update_canvas st o c :
  all_listening st → _canvas st = Some c →
  ∃ st', emit_update o st = (Normal (), st') ∧
    all_listening st' ∧
    _canvas st' = Some c ∧
    _paused st' = _paused st ∧
    length (heap st') = length (heap st) ∧
    renders st' = renders st +
      if _paused st then 0
      else if bool_decide (o < length (heap st)) then 1 else 0.
Proof.
  intros Hall Hc. destruct (heap st !! o) as [i|] eqn:Hi.
  - assert (Hlt : o < length (heap st)) by (by eapply lookup_lt_Some).
    destruct (_paused st) eqn:Hp.
    + rewrite emit_update_paused by done. exists st.
      rewrite Hp. repeat split; (done || lia).
    + pose proof (emit_update_unpaused st o i Hi (Hall o i Hi) Hp) as He.
      cbv zeta in He. rewrite He, Hc. clear He.
      eexists. split; [done|]. simpl.
      rewrite bool_decide_eq_true_2 by done.
      split; [by eapply all_listening_insert|].
      rewrite length_insert. repeat split; (done || lia).
  - rewrite emit_update_missing by done. exists st.
    apply lookup_ge_None in Hi.
    rewrite bool_decide_eq_false_2 by lia.
    repeat split; try done. destruct (_paused st); lia.
Qed.

Lemma updates_canvas (os : list loc) st c :
  all_listening st → _canvas st = Some c →
  ∃ st', for_of emit_update os st = (Normal (), st') ∧
    renders st' = renders st +
      if _paused st then 0
      else length (filter (λ o, o < length (heap st)) os).
Proof.
  revert st. induction os as [|o os IH]; intros st Hall Hc.
  - exists st. split; [done|]. destruct (_paused st); simpl; lia.
  - destruct (emit_update_canvas st o c Hall Hc)
      as (st1 & He & Hall1 & Hc1 & Hp1 & Hlen1 & Hr1).
    destruct (IH st1 Hall1 Hc1) as (st2 & Hrun & Hr2).
    exists st2. rewrite for_of_cons, He. split; [done|].
    rewrite Hr2, Hr1, Hp1, Hlen1. destruct (_paused st); [lia|].
    destruct (decide (o < length (heap st))) as [Hlt|Hge].
    + rewrite bool_decide_eq_true_2 by done.
      rewrite filter_cons_True by done. cbn [length]. unfold loc. lia.
    + rewrite bool_decide_eq_false_2 by done.
      rewrite filter_cons_False by done. unfold loc. lia.
Qed.

(** X2: after the initialization of a fresh session and the creation of
    the canvas, the "update" events of a sequence complete without an
    exception; together they trigger no re-render when the UI is paused,
    and otherwise one re-render for each event of an existing operation and
    none for the others. *)
Theorem updates_render_once_each reg sel st (os : list loc) :
  heap st = [] →
  let st1 := (_initCanvas (_initOperations reg sel st).2).2 in
  let r := for_of emit_update os st1 in
  r.1 = Normal () ∧
  renders r.2 =
    renders st1 +
    if _paused st1 then 0
    else length (filter (λ o, o < length (heap st1)) os).
Proof.
  intros Hheap st1 r.
  destruct (updates_canvas os st1 CanvasInstance) as (st' & Hrun & Hr).
  - apply (all_listening_heap (_initOperations reg sel st).2); [done|].
    by apply init_all_listening.
  - done.
  - unfold r. by rewrite Hrun.
Qed.

(** X3: after the initialization of a fresh session and a sequence of
    update and pause events, an operation is flagged [isIdentity = false]
    exactly when one of its "update" events arrived while the UI was not
    paused; otherwise it is still flagged [true].  The flag never returns
    to [true]. *)
Theorem identity_flag_tracks_updates reg sel st es o :
  heap st = [] →
  let st1 := (_initOperations reg sel st).2 in
  let st2 := (run_events es st1).2 in
  o < length (heap st1) →
  isIdentity_at st2 o = Some (negb (updated_unpaused (_paused st1) o es)).
Proof.
  intros Hheap st1 st2 Ho.
  destruct (run_events_all_listening es st1 (init_all_listening reg sel st Hheap))
    as (_ & _ & Hi).
  unfold st2. rewrite Hi by done.
  destruct (updated_unpaused (_paused st1) o es); [done|].
  apply init_listening. rewrite Hheap. simpl. split; [lia|done].
Qed.

(** *** What events leave alone, in every state *)

Lemma assign_isIdentity_shape st o b :
  let st' := (assign_isIdentity o b st).2 in
  operationsStack st' = operationsStack st ∧
  _operationsMap st' = _operationsMap st ∧
  length (heap st') = length (heap st) ∧
  ∀ o', identifier_at st' o' = identifier_at st o' ∧
        update_listeners <$> heap st' !! o' = update_listeners <$> heap st !! o'.
Proof.
  unfold assign_isIdentity, modify, set_heap, identifier_at. simpl.
  destruct (heap st !! o) as [i|] eqn:Hi; [|done].
  rewrite length_insert. repeat split; try done.
  - destruct (decide (o' = o)) as [->|Hne].
    + rewrite list_lookup_insert_eq by (by eapply lookup_lt_Some).
      by rewrite Hi.
    + by rewrite list_lookup_insert_ne.
  - destruct (decide (o' = o)) as [->|Hne].
    + rewrite list_lookup_insert_eq by (by eapply lookup_lt_Some).
      by rewrite Hi.
    + by rewrite list_lookup_insert_ne.
Qed.

Lemma run_listener_shape (l : Listener) st :
  let r := run_listener l st in
  operationsStack r.2 = operationsStack st ∧
  _operationsMap r.2 = _operationsMap st ∧
  ∀ o', identifier_at r.2 o' = identifier_at st o'.
Proof.
  destruct l as [o]. cbv zeta.
  unfold run_listener, mbind, M_bind, get.
  destruct (_paused st); [done|].
  destruct (assign_isIdentity_shape st o false) as (H1 & H2 & _ & H4).
  destruct (assign_isIdentity o false st) as [[[]|e] st1] eqn:Hst1; [|done].
  cbn [fst snd] in *.
  destruct (render_frame st1) as (G0 & G1 & G2 & _).
  split; [congruence|]. split; [congruence|].
  intros o'. unfold identifier_at in *. rewrite G0. apply (H4 o').
Qed.

Lemma listeners_shape (ls : list Listener) st :
  let r := for_of run_listener ls st in
  operationsStack r.2 = operationsStack st ∧
  _operationsMap r.2 = _operationsMap st ∧
  ∀ o', identifier_at r.2 o' = identifier_at st o'.
Proof.
  revert st. induction ls as [|l ls IH]; intros st; [done|].
  cbv zeta. rewrite for_of_cons.
  destruct (run_listener_shape l st) as (H1 & H2 & H4).
  destruct (run_listener l st) as [[[]|e] st1]; [|done].
  cbn [fst snd] in *.
  destruct (IH st1) as (G1 & G2 & G4).
  split; [congruence|]. split; [congruence|].
  intros o'. by rewrite G4.
Qed.

Lemma emit_update_shape o st :
  operationsStack (emit_update o st).2 = operationsStack st ∧
  _operationsMap (emit_update o st).2 = _operationsMap st ∧
  ∀ o', identifier_at (emit_update o st).2 o' = identifier_at st o'.
Proof.
  unfold emit_update, mbind, M_bind, get.
  destruct (heap st !! o) as [i|]; [|done].
  apply listeners_shape.
Qed.

Lemma step_shape (e : Event) st :
  operationsStack (step e st).2 = operationsStack st ∧
  _operationsMap (step e st).2 = _operationsMap st ∧
  ∀ o, identifier_at (step e st).2 o = identifier_at st o.
Proof.
  destruct e as [o|[]|].
  - rewrite step_update.
    destruct (emit_update_shape o
                (if _paused st then set_deferred true st else st))
      as (G1 & G2 & G4).
    rewrite G1, G2. split; [by destruct (_paused st)|].
    split; [by destruct (_paused st)|].
    intros o'. rewrite G4. by destruct (_paused st).
  - done.
  - change (step (SetPaused false) st) with (unpause st).
    destruct (unpause_frame st) as (Hh & Hs & Hm & _).
    split; [done|]. split; [done|].
    intros o. unfold identifier_at. by rewrite Hh.
  - done.
Qed.

(** X4: whatever happens after initialization, in whatever state and
    order, and whether it completes or throws: "update" events, pausing,
    unpausing and the creation of the canvas never add, remove or reorder
    operations.  The operations stack, the operations map and the
    identifiers of the instances stay as they were. *)
Theorem events_keep_operations st es :
  let st' := (run_events es st).2 in
  operationsStack st' = operationsStack st ∧
  _operationsMap st' = _operationsMap st ∧
  (∀ o, identifier_at st' o = identifier_at st o) ∧
  stack_identifiers st' = stack_identifiers st.
Proof.
  assert (H : ∀ st, let st' := (run_events es st).2 in
    operationsStack st' = operationsStack st ∧
    _operationsMap st' = _operationsMap st ∧
    ∀ o, identifier_at st' o = identifier_at st o).
  { clear st. induction es as [|e es IH]; intros st; [done|].
    cbv zeta. rewrite run_events_cons.
    destruct (step_shape e st) as (G1 & G2 & G4).
    destruct (IH (step e st).2) as (K1 & K2 & K4).
    split; [congruence|]. split; [congruence|].
    intros o. by rewrite K4. }
  destruct (H st) as (G1 & G2 & G4). cbv zeta.
  split; [done|]. split; [done|]. split; [done|].
  unfold stack_identifiers. rewrite G1.
  apply list_eq. intros j. clear -G4.
  revert j. induction (operationsStack st) as [|o os IH]; intros j; [done|].
  simpl. rewrite G4. destruct (identifier_at st o); [|apply IH].
  destruct j; [done|]. apply IH.
Qed.

End NightUIUpdateFacts.

Section NightUIUpdateExamples.

Import NightUI NightUIUpdates NightUIExamples.

Lemma updates_render_once_each_witness :
  let st1 :=
    (_initCanvas
       (_initOperations registry (selected ["filters"; "flip"]) session).2).2 in
  let r := for_of emit_update [0; 1; 7; 0] st1 in
  r.1 = Normal () ∧
  renders r.2 =
    renders st1 +
    if _paused st1 then 0
    else length (filter (λ o, o < length (heap st1)) [0; 1; 7; 0]).
Proof.
  apply (updates_render_once_each registry (selected ["filters"; "flip"])
           session [0; 1; 7; 0]).
  reflexivity.
Defined.

Lemma identity_flag_tracks_updates_witness :
  let es := [SetPaused true; Update 1; SetPaused false; Update 0] in
  let st1 := (_initOperations registry (selected ["filters"; "flip"]) session).2 in
  let st2 := (run_events es st1).2 in
  isIdentity_at st2 1 = Some true.
Proof.
  apply (identity_flag_tracks_updates registry (selected ["filters"; "flip"])
           session [SetPaused true; Update 1; SetPaused false; Update 0] 1).
  - reflexivity.
  - vm_compute. lia.
Defined.

End NightUIUpdateExamples.

(** ** Controls *)

Section NightUIControlsFacts.

Import NightUI NightUIPlan NightUIControls.

#[local] Set Default Proof Using "Type".

Context {Class Element : Type}.
Variable sel : string → bool.
Variable require : string → Class.
Variable inherited : string → bool.
Variable enumerate : list (string * loc) → list string.

Implicit Types (ui : UI Class Element) (o : list (string * loc))
  (regs : list (string * string * string)).

(** *** The controls object *)

Lemma obj_own_set o k v k' :
  obj_own (obj_set k v o) k' = if decide (k' = k) then Some v else obj_own o k'.
Proof.
  induction o as [|[k0 v0] o IH]; simpl.
  - by destruct (decide (k' = k)).
  - destruct (decide (k = k0)) as [->|Hne]; simpl.
    + by destruct (decide (k' = k0)).
    + destruct (decide (k' = k0)) as [->|Hne'].
      * by rewrite decide_False.
      * apply IH.
Qed.

Lemma obj_own_None o k : obj_own o k = None ↔ k ∉ o.*1.
Proof.
  induction o as [|[k0 v0] o IH]; simpl.
  - split; [intros _; apply not_elem_of_nil|done].
  - rewrite not_elem_of_cons. destruct (decide (k = k0)) as [->|Hne].
    + split; [done|]. by intros [? _].
    + rewrite IH. split; [intros H; by split|by intros [_ H]].
Qed.

Lemma obj_own_is_Some o k : is_Some (obj_own o k) ↔ k ∈ o.*1.
Proof.
  rewrite <-not_eq_None_Some, obj_own_None. split; [apply dec_stable|].
  by intros ? ?.
Qed.

Lemma obj_own_Some o k c : obj_own o k = Some c → (k, c) ∈ o.
Proof.
  induction o as [|[k0 v0] o IH]; simpl; [done|].
  destruct (decide (k = k0)) as [->|Hne].
  - intros [= ->]. by left.
  - intros H. right. by apply IH.
Qed.

Lemma obj_own_elem o k c : NoDup o.*1 → (k, c) ∈ o → obj_own o k = Some c.
Proof.
  induction o as [|[k0 v0] o IH]; simpl; intros Hnd Hin.
  - by apply elem_of_nil in Hin.
  - apply NoDup_cons in Hnd as [Hk0 Hnd].
    apply elem_of_cons in Hin as [[= -> ->]|Hin].
    + by rewrite decide_True.
    + rewrite decide_False; [by apply IH|].
      intros ->. apply Hk0. by apply (list_elem_of_fmap_2' fst _ (k0, c)).
Qed.

Lemma obj_set_fresh o k v : obj_own o k = None → obj_set k v o = o ++ [(k, v)].
Proof.
  induction o as [|[k0 v0] o IH]; simpl; [done|].
  destruct (decide (k = k0)); [done|]. intros H. by rewrite IH.
Qed.

(** *** Registration *)

Lemma registerControl_unselected identifier operationIdentifier C ui :
  sel operationIdentifier = false →
  registerControl sel identifier operationIdentifier C ui = (Normal (), ui).
Proof. intros H. unfold registerControl. by rewrite H. Qed.

Lemma registerControl_selected identifier operationIdentifier C ui :
  sel operationIdentifier = true →
  registerControl sel identifier operationIdentifier C ui =
  (Normal (),
   mkUI (control_heap ui ++ [C])
        (obj_set identifier (length (control_heap ui)) (_registeredControls ui))
        (_currentControl ui) (_controlsContainer ui)
        (_canvasControlsContainer ui) (overview_display ui) (calls ui)).
Proof. intros H. unfold registerControl. by rewrite H. Qed.

Lemma register_all regs ui :
  NoDup regs.*1.*1 →
  (∀ k, k ∈ regs.*1.*1 → obj_own (_registeredControls ui) k = None) →
  for_of (λ d, registerControl sel d.1.1 d.1.2 (require d.2)) regs ui =
  (Normal (),
   let chosen := filter (λ d, sel d.1.2) regs in
   mkUI (control_heap ui ++ (require ∘ snd <$> chosen))
        (_registeredControls ui ++
           zip chosen.*1.*1 (seq (length (control_heap ui)) (length chosen)))
        (_currentControl ui) (_controlsContainer ui)
        (_canvasControlsContainer ui) (overview_display ui) (calls ui)).
Proof.
  revert ui. induction regs as [|[[k op] path] regs IH]; intros ui Hnd Hfree.
  - simpl. rewrite !app_nil_r. by destruct ui.
  - rewrite !fmap_cons in Hnd. cbn [fst] in Hnd.
    apply NoDup_cons in Hnd as [Hk Hnd].
    rewrite for_of_cons. cbn [fst snd].
    destruct (sel op) eqn:Hop.
    + rewrite registerControl_selected by done.
      rewrite obj_set_fresh by (apply Hfree; rewrite !fmap_cons; by left).
      rewrite IH; [|done|].
      * rewrite filter_cons_True by (simpl; by rewrite Hop).
        cbn [control_heap _registeredControls _currentControl
             _controlsContainer _canvasControlsContainer overview_display calls].
        rewrite length_app, Nat.add_1_r. cbv zeta.
        rewrite !fmap_cons, <-!app_assoc. reflexivity.
      * intros k' Hk'. cbn [_registeredControls].
        assert (Hne : k' ≠ k) by (by intros ->).
        apply obj_own_None. rewrite fmap_app, not_elem_of_app. split.
        -- apply obj_own_None, Hfree. rewrite !fmap_cons. by right.
        -- simpl. apply not_elem_of_cons. split; [done|apply not_elem_of_nil].
    + rewrite registerControl_unselected by done.
      rewrite IH; [|done|].
      * rewrite filter_cons_False; [done|]. simpl. by apply Is_true_false_2.
      * intros k' Hk'. apply Hfree. rewrite !fmap_cons. by right.
Qed.

Lemma _registerControls_for_of ui :
  _registerControls sel require ui =
  for_of (λ d, registerControl sel d.1.1 d.1.2 (require d.2)) default_controls ui.
Proof.
  unfold _registerControls, default_controls. simpl.
  unfold mbind, M_bind, mret, M_ret.
  repeat match goal with
  | |- context [registerControl sel ?i ?op ?C ?u] =>
      let r := fresh "r" in
      let u' := fresh "ui" in
      destruct (registerControl sel i op C u) as [[[]|?] u']; [|done]
  end.
  done.
Qed.

Lemma default_controls_NoDup : NoDup default_controls.*1.*1.
Proof. by apply (bool_decide_unpack _); vm_compute. Qed.

(** X5: [_registerControls], run on the UI that the constructor leaves,
    registers exactly the default controls whose operation is selected, in
    the order of the source, each under its identifier with a new instance
    of its class; a control of an operation that is not selected is not
    even instantiated.  "rotation" and "crop" both belong to the operation
    "crop-rotation" and so are registered together or not at all. *)
Theorem registerControls_selected ui :
  _registeredControls ui = [] →
  let chosen := filter (λ d, sel d.1.2) default_controls in
  _registerControls sel require ui =
  (Normal (),
   mkUI (control_heap ui ++ (require ∘ snd <$> chosen))
        (zip chosen.*1.*1 (seq (length (control_heap ui)) (length chosen)))
        (_currentControl ui) (_controlsContainer ui)
        (_canvasControlsContainer ui) (overview_display ui) (calls ui)).
Proof.
  intros Hempty. rewrite _registerControls_for_of, register_all.
  - by rewrite Hempty.
  - apply default_controls_NoDup.
  - intros k _. by rewrite Hempty.
Qed.

Lemma registered_after ui k :
  _registeredControls ui = [] →
  is_Some (obj_own (_registeredControls (_registerControls sel require ui).2) k) ↔
  ∃ op path, (k, op, path) ∈ default_controls ∧ sel op = true.
Proof.
  intros Hempty. rewrite registerControls_selected by done.
  cbv zeta. cbn [snd _registeredControls].
  rewrite obj_own_is_Some.
  rewrite fst_zip by (by rewrite length_seq, !length_fmap).
  split.
  - intros Hin.
    apply list_elem_of_fmap in Hin as ([k' op] & -> & Hin).
    apply list_elem_of_fmap in Hin as ([[k'' op'] path] & [= -> ->] & Hin).
    apply list_elem_of_filter in Hin as [Hsel Hin].
    exists op', path. split; [done|]. by apply Is_true_true.
  - intros (op & path & Hin & Hsel).
    apply (list_elem_of_fmap_2' fst _ (k, op)); [|done].
    apply (list_elem_of_fmap_2' fst _ (k, op, path)); [|done].
    apply list_elem_of_filter. split; [|done]. simpl. by apply Is_true_true.
Qed.

Lemma init_map_iff {Ctor} (reg : gmap string Ctor) (st : State Ctor) op :
  _operationsMap st = ∅ →
  (∀ identifier, identifier ∈ _preferredOperationOrder →
                 sel identifier = true → is_Some (reg !! identifier)) →
  is_Some (_operationsMap (_initOperations reg sel st).2 !! op) ↔
  op ∈ _preferredOperationOrder ∧ sel op = true.
Proof.
  intros Hmap Hreg. unfold _initOperations.
  rewrite for_of_initOperation. cbn [snd].
  destruct (plan_complete reg sel _preferredOperationOrder Hreg) as [_ Hids].
  set (p := (plan reg sel _preferredOperationOrder).1) in *.
  assert (Hnd : NoDup p.*1).
  { apply (sublist_NoDup _ _preferredOperationOrder).
    - apply preferred_NoDup.
    - apply plan_ids_sublist. }
  split.
  - intros [o (i & C & Hi & _)%installs_map_inv]; [|done].
    assert (Hin : op ∈ p.*1).
    { apply (list_elem_of_fmap_2' fst _ (op, C)); [|done].
      by apply (list_elem_of_lookup_2 _ i). }
    rewrite Hids in Hin. apply list_elem_of_filter in Hin as [Hsel Hin].
    split; [done|]. by apply Is_true_true.
  - intros [Hin Hsel].
    assert (Hp : op ∈ p.*1).
    { rewrite Hids. apply list_elem_of_filter. split; [|done].
      by apply Is_true_true. }
    apply list_elem_of_fmap in Hp as ([op' C] & -> & Hp).
    apply list_elem_of_lookup in Hp as [i Hi].
    eexists. by apply (installs_map_new _ _ i _ C).
Qed.

Lemma default_controls_in_order :
  Forall (λ d, d.1.2 ∈ _preferredOperationOrder) default_controls.
Proof. by apply (bool_decide_unpack _); vm_compute. Qed.

Lemma order_has_controls :
  Forall (λ op, Exists (λ d, d.1.2 = op) default_controls)
         _preferredOperationOrder.
Proof. by apply (bool_decide_unpack _); vm_compute. Qed.

(** X6: the controls and the operations of a session agree.  After
    [_registerControls] and a completed [_initOperations] with the same
    selection, every registered control finds the instance of its operation
    in the operations map, and every operation in the map has a registered
    control. *)
Theorem controls_match_operations {Ctor} (reg : gmap string Ctor)
    (st : State Ctor) ui :
  _registeredControls ui = [] → _operationsMap st = ∅ →
  (∀ identifier, identifier ∈ _preferredOperationOrder →
                 sel identifier = true → is_Some (reg !! identifier)) →
  let ui' := (_registerControls sel require ui).2 in
  let st' := (_initOperations reg sel st).2 in
  (_initOperations reg sel st).1 = Normal () ∧
  (∀ k, is_Some (obj_own (_registeredControls ui') k) →
        ∃ op path, (k, op, path) ∈ default_controls ∧
                   is_Some (_operationsMap st' !! op)) ∧
  (∀ op, is_Some (_operationsMap st' !! op) →
         ∃ k path, (k, op, path) ∈ default_controls ∧
                   is_Some (obj_own (_registeredControls ui') k)).
Proof.
  intros Hempty Hmap Hreg ui' st'. split; [|split].
  - unfold _initOperations. rewrite for_of_initOperation.
    by destruct (plan_complete reg sel _preferredOperationOrder Hreg) as [-> _].
  - intros k (op & path & Hin & Hsel)%registered_after; [|done].
    exists op, path. split; [done|].
    apply init_map_iff; [done|done|]. split; [|done].
    pose proof default_controls_in_order as Hall.
    rewrite Forall_forall in Hall. apply (Hall _ Hin).
  - intros op [Hin Hsel]%init_map_iff; [|done|done].
    pose proof order_has_controls as Hall.
    rewrite Forall_forall in Hall.
    apply Hall, Exists_exists in Hin as ([[k op'] path] & Hd & Hop).
    simpl in Hop. subst op'.
    exists k, path. split; [done|].
    apply registered_after; [done|]. by exists op, path.
Qed.

(** X7: [registerControl] for a selected operation instantiates the class
    and stores the instance under the identifier: a lookup of the identifier
    then finds the new instance, the lookups of the other identifiers are as
    before, and the object has the properties it had and the identifier, no
    other.  For an operation that is not selected nothing happens. *)
Theorem registerControl_lookup identifier operationIdentifier C ui :
  identifier ≠ "__proto__" →
  let r := registerControl sel identifier operationIdentifier C ui in
  r.1 = Normal () ∧
  if sel operationIdentifier then
    lookup_registeredControls inherited identifier r.2
      = ControlRef (length (control_heap ui)) ∧
    control_heap r.2 !! length (control_heap ui) = Some C ∧
    (∀ k, k ≠ identifier →
          lookup_registeredControls inherited k r.2
          = lookup_registeredControls inherited k ui) ∧
    (∀ k, is_Some (obj_own (_registeredControls r.2) k) ↔
          k = identifier ∨ is_Some (obj_own (_registeredControls ui) k))
  else r.2 = ui.
Proof.
  intros _. cbv zeta. destruct (sel operationIdentifier) eqn:Hsel.
  - rewrite registerControl_selected by done. cbn [fst snd].
    split; [done|]. unfold lookup_registeredControls.
    cbn [_registeredControls control_heap]. split; [|split; [|split]].
    + by rewrite obj_own_set, decide_True.
    + by apply list_lookup_middle.
    + intros k Hk. by rewrite obj_own_set, decide_False.
    + intros k. rewrite obj_own_set.
      destruct (decide (k = identifier)) as [->|Hne].
      * split; [by left|by eexists].
      * split; [by right|]. by intros [?|?].
  - by rewrite registerControl_unselected.
Qed.

(** *** The overview *)

Lemma entered_snoc (trace : list (Call Element)) call :
  entered (trace ++ [call]) = track (entered trace) call.
Proof. unfold entered. by rewrite foldl_snoc. Qed.

Lemma handle_coherent (a : Action) ui :
  coherent ui → coherent (handle inherited a ui).2.
Proof.
  destruct ui as [h o cur cc ccc disp tr]. unfold coherent. simpl.
  intros [Hent Hdisp]. destruct a as [identifier|]; run_handler.
  - destruct disp as [d|]; simpl; [|done].
    destruct cur as [| |c|name]; simpl;
      destruct (obj_own o identifier) as [c'|]; simpl;
      try destruct (inherited identifier); simpl;
      rewrite ?entered_snoc, ?Hent; simpl; rewrite ?decide_True by done;
      split; try done; by intros [? [=]].
  - destruct cur as [| |c|name]; simpl;
      destruct disp as [d|]; simpl;
      rewrite ?entered_snoc, ?Hent; simpl; rewrite ?decide_True by done;
      split; try done; try (by intros [? [=]]).
    all: intros Hc; by apply Hdisp.
Qed.

(** X8: whatever overview buttons are clicked and whenever "back" fires,
    handlers that throw included, [enter] and [leave] alternate on one
    control at a time: a control is entered only while none is, it is left
    before another is entered, the control that is entered is
    [_currentControl], and while a control is entered the overview is
    hidden. *)
Theorem overview_coherent (acts : list Action) ui :
  coherent ui → coherent (handle_all inherited acts ui).
Proof.
  unfold handle_all. revert ui.
  induction acts as [|a acts IH]; intros ui H; [done|].
  simpl. by apply IH, handle_coherent.
Qed.

(** X9: a click on an overview button whose identifier names no registered
    control (and nothing inherited) throws a TypeError, after the overview
    was hidden and the current control was left: the UI is left with no
    current control and a hidden overview. *)
Theorem click_unregistered identifier ui d :
  overview_display ui = Some d →
  obj_own (_registeredControls ui) identifier = None →
  inherited identifier = false →
  (∀ name, _currentControl ui ≠ Inherited name) →
  _onOverviewButtonClick inherited identifier ui =
  (Throw TypeError,
   mkUI (control_heap ui) (_registeredControls ui) JSUndefined
        (_controlsContainer ui) (_canvasControlsContainer ui) (Some "none")
        (calls ui ++ match _currentControl ui with
                     | ControlRef c => [Leave c]
                     | _ => []
                     end)).
Proof.
  destruct ui as [h o cur cc ccc disp tr]. simpl.
  intros -> Hown Hinh Hcur.
  destruct cur as [| |c|name]; [| | |by destruct (Hcur name)];
    run_handler; rewrite Hown, Hinh; simpl; by rewrite ?app_nil_r.
Qed.

(** X10: [_switchToOverview] leaves the current control, if there is one,
    forgets it and shows the overview; a second call changes nothing more:
    however many "back" listeners have piled up on a control, the control
    is left once. *)
Theorem switchToOverview_idempotent ui d :
  overview_display ui = Some d →
  (∀ name, _currentControl ui ≠ Inherited name) →
  let ui' :=
    mkUI (control_heap ui) (_registeredControls ui) JSNull
         (_controlsContainer ui) (_canvasControlsContainer ui) (Some "")
         (calls ui ++ match _currentControl ui with
                      | ControlRef c => [Leave c]
                      | _ => []
                      end) in
  _switchToOverview ui = (Normal (), ui') ∧
  _switchToOverview ui' = (Normal (), ui').
Proof.
  destruct ui as [h o cur cc ccc disp tr]. simpl.
  intros -> Hcur.
  destruct cur as [| |c|name]; [| | |by destruct (Hcur name)];
    run_handler; by rewrite ?app_nil_r.
Qed.

(** X11: if the clicked identifier names no registered control but a
    property that a plain object inherits, that value becomes
    [_currentControl]; from then on every click and every "back" throws
    before it changes anything, and the overview stays hidden. *)
Theorem inherited_name_blocks identifier ui d (acts : list Action) :
  overview_display ui = Some d →
  obj_own (_registeredControls ui) identifier = None →
  inherited identifier = true →
  (∀ name, _currentControl ui ≠ Inherited name) →
  let r := _onOverviewButtonClick inherited identifier ui in
  r.1 = Throw TypeError ∧
  _currentControl r.2 = Inherited identifier ∧
  overview_display r.2 = Some "none" ∧
  handle_all inherited acts r.2 = r.2 ∧
  Forall (λ a, (handle inherited a r.2).1 = Throw TypeError) acts.
Proof.
  destruct ui as [h o cur cc ccc disp tr]. simpl.
  intros -> Hown Hinh Hcur.
  assert (Hstuck : ∀ ui0 (a : Action),
    _currentControl ui0 = Inherited identifier →
    overview_display ui0 = Some "none" →
    handle inherited a ui0 = (Throw TypeError, ui0)).
  { intros [h0 o0 cur0 cc0 ccc0 disp0 tr0] a. simpl. intros -> ->.
    by destruct a; run_handler. }
  cbv zeta.
  assert (Hclick : ∃ tr',
    _onOverviewButtonClick inherited identifier (mkUI h o cur cc ccc (Some d) tr)
    = (Throw TypeError,
       mkUI h o (Inherited identifier) cc ccc (Some "none") tr')).
  { destruct cur as [| |c|name]; [| | |by destruct (Hcur name)];
      run_handler; rewrite Hown, Hinh; simpl; by eexists. }
  destruct Hclick as [tr' ->]. cbn [fst snd].
  split; [done|]. split; [done|]. split; [done|]. split.
  - unfold handle_all. induction acts as [|a acts IH]; [done|].
    simpl. by rewrite Hstuck.
  - apply Forall_forall. intros a _. by rewrite Hstuck.
Qed.

(** X13: a click on the overview button of a registered control completes:
    the overview is hidden, the control that was current is left, the
    clicked control is entered, becomes [_currentControl] and gets one
    "back" listener.  When that listener fires, the control is left and the
    overview shown again: click and back are a round trip, up to the calls
    made. *)
Theorem click_registered_then_back identifier c ui d :
  overview_display ui = Some d →
  obj_own (_registeredControls ui) identifier = Some c →
  (∀ name, _currentControl ui ≠ Inherited name) →
  let left := match _currentControl ui with
              | ControlRef c' => [Leave c']
              | _ => []
              end in
  let entered_ui :=
    mkUI (control_heap ui) (_registeredControls ui) (ControlRef c)
         (_controlsContainer ui) (_canvasControlsContainer ui) (Some "none")
         (calls ui ++ left ++ [Enter c; OnceBack c]) in
  _onOverviewButtonClick inherited identifier ui = (Normal (), entered_ui) ∧
  _switchToOverview entered_ui =
    (Normal (),
     mkUI (control_heap ui) (_registeredControls ui) JSNull
          (_controlsContainer ui) (_canvasControlsContainer ui) (Some "")
          (calls ui ++ left ++ [Enter c; OnceBack c; Leave c])).
Proof.
  destruct ui as [h o cur cc ccc disp tr]. simpl.
  intros -> Hown Hcur.
  destruct cur as [| |c'|name]; [| | |by destruct (Hcur name)];
    run_handler; rewrite ?Hown; simpl; by rewrite <-?app_assoc.
Qed.

(** *** Initializing the controls *)

Lemma initControl_registered ui k c :
  obj_own (_registeredControls ui) k = Some c →
  initControl inherited k ui =
  (Normal (),
   mkUI (control_heap ui) (_registeredControls ui) (_currentControl ui)
        (_controlsContainer ui) (_canvasControlsContainer ui)
        (overview_display ui)
        (calls ui ++ [SetContainers c (_controlsContainer ui)
                                    (_canvasControlsContainer ui); Init c])).
Proof.
  intros H. unfold initControl, mbind, M_bind, get, lookup_registeredControls.
  rewrite H. simpl. unfold modify. simpl. by rewrite <-app_assoc.
Qed.

Lemma initControls_calls (ks : list string) ui :
  Forall (λ k, is_Some (obj_own (_registeredControls ui) k)) ks →
  for_of (initControl inherited) ks ui =
  (Normal (),
   mkUI (control_heap ui) (_registeredControls ui) (_currentControl ui)
        (_controlsContainer ui) (_canvasControlsContainer ui)
        (overview_display ui)
        (calls ui ++
           flat_map (λ k, match obj_own (_registeredControls ui) k with
                          | Some c => [SetContainers c (_controlsContainer ui)
                                         (_canvasControlsContainer ui); Init c]
                          | None => []
                          end) ks)).
Proof.
  revert ui. induction ks as [|k ks IH]; intros ui Hall.
  - simpl. rewrite app_nil_r. by destruct ui.
  - apply Forall_cons in Hall as [[c Hc] Hall].
    rewrite for_of_cons, (initControl_registered ui k c Hc).
    rewrite IH by done. simpl. by rewrite Hc, <-app_assoc.
Qed.

Lemma calls_on_pair c c' (a b : option Element) :
  calls_on c [SetContainers c' a b; Init c'] =
  if decide (c' = c) then [SetContainers c' a b; Init c'] else [].
Proof.
  unfold calls_on. destruct (decide (c' = c)) as [->|Hne].
  - rewrite filter_cons_True by done. by rewrite filter_cons_True by done.
  - rewrite filter_cons_False by done. by rewrite filter_cons_False by done.
Qed.

Lemma values_inj o k1 k2 c :
  NoDup o.*2 → (k1, c) ∈ o → (k2, c) ∈ o → k1 = k2.
Proof.
  induction o as [|[k0 c0] o IH]; intros Hnd H1 H2.
  - by apply elem_of_nil in H1.
  - rewrite fmap_cons in Hnd. apply NoDup_cons in Hnd as [Hc0 Hnd].
    apply elem_of_cons in H1 as [H1|H1];
      apply elem_of_cons in H2 as [H2|H2]; simplify_eq; try done.
    + destruct Hc0. by eapply (list_elem_of_fmap_2' snd _ (k2, _)).
    + destruct Hc0. by eapply (list_elem_of_fmap_2' snd _ (k1, _)).
    + by apply IH.
Qed.

Lemma calls_on_controls o (a b : option Element) c (ks : list string) :
  NoDup o.*1 → NoDup o.*2 → NoDup ks →
  Forall (λ k, is_Some (obj_own o k)) ks →
  (∀ k, k ∈ o.*1 → k ∈ ks) →
  calls_on c
    (flat_map (λ k, match obj_own o k with
                    | Some c' => [SetContainers c' a b; Init c']
                    | None => []
                    end) ks) =
  if bool_decide (c ∈ o.*2) then [SetContainers c a b; Init c] else [].
Proof.
  intros Hk Hv Hks Hall Hcover.
  assert (Hnone : ∀ ks', (∀ k, k ∈ ks' → obj_own o k ≠ Some c) →
    calls_on c
      (flat_map (λ k, match obj_own o k with
                      | Some c' => [SetContainers c' a b; Init c']
                      | None => []
                      end) ks') = []).
  { induction ks' as [|k ks' IH]; intros Hno; [done|].
    simpl. unfold calls_on in *. rewrite filter_app, IH.
    - rewrite app_nil_r. destruct (obj_own o k) as [c'|] eqn:Hc'; [|done].
      fold (calls_on c [SetContainers c' a b; Init c']).
      rewrite calls_on_pair, decide_False; [done|].
      intros ->. apply (Hno k); [by left|done].
    - intros k' Hk'. apply Hno. by right. }
  destruct (bool_decide (c ∈ o.*2)) eqn:Hc.
  - apply bool_decide_eq_true in Hc.
    apply list_elem_of_fmap in Hc as ([k0 c0] & -> & Hin). simpl.
    assert (Hk0 : k0 ∈ ks).
    { apply Hcover. by apply (list_elem_of_fmap_2' fst _ (k0, c0)). }
    clear Hcover Hall. induction ks as [|k ks IH]; [by apply elem_of_nil in Hk0|].
    apply NoDup_cons in Hks as [Hk_notin Hks].
    simpl. unfold calls_on. rewrite filter_app.
    fold (calls_on c0 (match obj_own o k with
                       | Some c' => [SetContainers c' a b; Init c']
                       | None => []
                       end)).
    apply elem_of_cons in Hk0 as [<-|Hk0].
    + rewrite (obj_own_elem o k0 c0 Hk Hin), calls_on_pair, decide_True by done.
      fold (calls_on c0 (flat_map (λ k, match obj_own o k with
                      | Some c' => [SetContainers c' a b; Init c']
                      | None => []
                      end) ks)).
      rewrite Hnone; [done|].
      intros k Hkin Hown. apply obj_own_Some in Hown.
      by rewrite (values_inj o k k0 c0 Hv Hown Hin) in Hkin.
    + fold (calls_on c0 (flat_map (λ k, match obj_own o k with
                      | Some c' => [SetContainers c' a b; Init c']
                      | None => []
                      end) ks)).
      rewrite IH by done.
      destruct (obj_own o k) as [c'|] eqn:Hc'; [|done].
      rewrite calls_on_pair, decide_False; [done|].
      intros ->. apply obj_own_Some in Hc'.
      by rewrite (values_inj o k k0 c0 Hv Hc' Hin) in Hk_notin.
  - apply bool_decide_eq_false in Hc. apply Hnone.
    intros k _ Hown. apply Hc.
    apply (list_elem_of_fmap_2' snd _ (k, c)); [|done]. by apply obj_own_Some.
Qed.

Lemma initControls_length o (a b : option Element) (ks : list string) :
  Forall (λ k, is_Some (obj_own o k)) ks →
  length (flat_map (λ k, match obj_own o k with
                         | Some c' => [SetContainers c' a b; Init c']
                         | None => []
                         end) ks) = 2 * length ks.
Proof.
  induction 1 as [|k ks [c Hc] _ IH]; [done|].
  simpl. rewrite Hc. simpl. lia.
Qed.

(** X12: [_initControls] initializes every registered control exactly
    once: each control receives [setContainers], with the two containers
    of the UI, directly followed by [init], and no other call is made,
    in whatever order the properties of the controls object are visited. *)
Theorem initControls_each_once ui :
  enumerate (_registeredControls ui) ≡ₚ (_registeredControls ui).*1 →
  NoDup (_registeredControls ui).*1 →
  NoDup (_registeredControls ui).*2 →
  ∃ new,
    _initControls inherited enumerate ui =
      (Normal (),
       mkUI (control_heap ui) (_registeredControls ui) (_currentControl ui)
            (_controlsContainer ui) (_canvasControlsContainer ui)
            (overview_display ui) (calls ui ++ new)) ∧
    length new = 2 * length (_registeredControls ui) ∧
    ∀ c, calls_on c new =
         if bool_decide (c ∈ (_registeredControls ui).*2)
         then [SetContainers c (_controlsContainer ui)
                             (_canvasControlsContainer ui); Init c]
         else [].
Proof.
  intros Hperm Hk Hv.
  set (ks := enumerate (_registeredControls ui)) in *.
  assert (Hall : Forall (λ k, is_Some (obj_own (_registeredControls ui) k)) ks).
  { apply Forall_forall. intros k Hin. apply obj_own_is_Some. by rewrite <-Hperm. }
  eexists. split; [|split].
  - unfold _initControls, mbind, M_bind, get. fold ks.
    by apply initControls_calls.
  - rewrite initControls_length by done.
    by rewrite (Permutation_length Hperm), length_fmap.
  - intros c. apply calls_on_controls; try done.
    + by rewrite Hperm.
    + intros k Hin. by rewrite Hperm.
Qed.

End NightUIControlsFacts.

Section NightUIControlsExamplesFacts.

Import NightUI NightUIPlan NightUIExamples NightUIControls
  NightUIControlsExamples.

Lemma registerControls_selected_witness :
  let ui : UI string string := constructed in
  let picked := filter (λ d, chosen d.1.2) default_controls in
  _registerControls chosen (λ path, path) ui =
  (Normal (),
   mkUI (control_heap ui ++ ((λ path, path) ∘ snd <$> picked))
        (zip picked.*1.*1 (seq (length (control_heap ui)) (length picked)))
        (_currentControl ui) (_controlsContainer ui)
        (_canvasControlsContainer ui) (overview_display ui) (calls ui)).
Proof.
  apply (registerControls_selected chosen (λ path, path) constructed).
  reflexivity.
Defined.

Lemma controls_match_operations_witness :
  let ui' := (_registerControls chosen (λ path, path) shown).2 in
  let st' := (_initOperations registry chosen session).2 in
  (_initOperations registry chosen session).1 = Normal () ∧
  (∀ k, is_Some (obj_own (_registeredControls ui') k) →
        ∃ op path, (k, op, path) ∈ default_controls ∧
                   is_Some (_operationsMap st' !! op)) ∧
  (∀ op, is_Some (_operationsMap st' !! op) →
         ∃ k path, (k, op, path) ∈ default_controls ∧
                   is_Some (obj_own (_registeredControls ui') k)).
Proof.
  apply (controls_match_operations chosen (λ path, path) registry session shown).
  - reflexivity.
  - reflexivity.
  - intros identifier Hin _.
    repeat (apply elem_of_cons in Hin as [->|Hin]);
      try (by vm_compute; eexists).
    by apply elem_of_nil in Hin.
Defined.

Lemma registerControl_lookup_witness :
  let r := registerControl chosen "rotation" "crop-rotation"
             "./controls/rotation" registered in
  r.1 = Normal () ∧
  if chosen "crop-rotation" then
    lookup_registeredControls example_inherited "rotation" r.2
      = ControlRef (length (control_heap registered)) ∧
    control_heap r.2 !! length (control_heap registered)
      = Some "./controls/rotation" ∧
    (∀ k, k ≠ "rotation" →
          lookup_registeredControls example_inherited k r.2
          = lookup_registeredControls example_inherited k registered) ∧
    (∀ k, is_Some (obj_own (_registeredControls r.2) k) ↔
          k = "rotation" ∨ is_Some (obj_own (_registeredControls registered) k))
  else r.2 = registered.
Proof.
  apply (registerControl_lookup chosen example_inherited "rotation"
           "crop-rotation" "./controls/rotation" registered).
  discriminate.
Defined.

Lemma overview_coherent_witness :
  coherent
    (handle_all example_inherited
       [ClickOverview "filters"; ClickOverview "crop"; ClickOverview "flip";
        Back; ClickOverview "rotation"; Back; Back]
       registered).
Proof.
  apply (overview_coherent example_inherited
           [ClickOverview "filters"; ClickOverview "crop"; ClickOverview "flip";
            Back; ClickOverview "rotation"; Back; Back]
           registered).
  split; [reflexivity|]. intros [c Hc]. vm_compute in Hc. discriminate Hc.
Defined.

Lemma click_unregistered_witness :
  _onOverviewButtonClick example_inherited "flip" filters_entered =
  (Throw TypeError,
   mkUI (control_heap filters_entered) (_registeredControls filters_entered)
        JSUndefined (_controlsContainer filters_entered)
        (_canvasControlsContainer filters_entered) (Some "none")
        (calls filters_entered ++
           match _currentControl filters_entered with
           | ControlRef c => [Leave c]
           | _ => []
           end)).
Proof.
  apply (click_unregistered example_inherited "flip" filters_entered "none").
  - reflexivity.
  - reflexivity.
  - reflexivity.
  - intros name H. vm_compute in H. discriminate H.
Defined.

Lemma switchToOverview_idempotent_witness :
  let ui' :=
    mkUI (control_heap filters_entered) (_registeredControls filters_entered)
         JSNull (_controlsContainer filters_entered)
         (_canvasControlsContainer filters_entered) (Some "")
         (calls filters_entered ++
            match _currentControl filters_entered with
            | ControlRef c => [Leave c]
            | _ => []
            end) in
  _switchToOverview filters_entered = (Normal (), ui') ∧
  _switchToOverview ui' = (Normal (), ui').
Proof.
  apply (switchToOverview_idempotent filters_entered "none").
  - reflexivity.
  - intros name H. vm_compute in H. discriminate H.
Defined.

Lemma inherited_name_blocks_witness :
  let acts := [Back; ClickOverview "filters"; Back] in
  let r := _onOverviewButtonClick example_inherited "toString" filters_entered in
  r.1 = Throw TypeError ∧
  _currentControl r.2 = Inherited "toString" ∧
  overview_display r.2 = Some "none" ∧
  handle_all example_inherited acts r.2 = r.2 ∧
  Forall (λ a, (handle example_inherited a r.2).1 = Throw TypeError) acts.
Proof.
  apply (inherited_name_blocks example_inherited "toString" filters_entered
           "none" [Back; ClickOverview "filters"; Back]).
  - reflexivity.
  - reflexivity.
  - reflexivity.
  - intros name H. vm_compute in H. discriminate H.
Defined.

Lemma click_registered_then_back_witness :
  let ui := filters_entered in
  let left := match _currentControl ui with
              | ControlRef c' => [Leave c']
              | _ => []
              end in
  let entered_ui :=
    mkUI (control_heap ui) (_registeredControls ui) (ControlRef 2)
         (_controlsContainer ui) (_canvasControlsContainer ui) (Some "none")
         (calls ui ++ left ++ [Enter 2; OnceBack 2]) in
  _onOverviewButtonClick example_inherited "crop" ui = (Normal (), entered_ui) ∧
  _switchToOverview entered_ui =
    (Normal (),
     mkUI (control_heap ui) (_registeredControls ui) JSNull
          (_controlsContainer ui) (_canvasControlsContainer ui) (Some "")
          (calls ui ++ left ++ [Enter 2; OnceBack 2; Leave 2])).
Proof.
  apply (click_registered_then_back example_inherited "crop" 2
           filters_entered "none").
  - reflexivity.
  - reflexivity.
  - intros name H. vm_compute in H. discriminate H.
Defined.

Lemma initControls_each_once_witness :
  ∃ new,
    _initControls example_inherited insertion_order registered =
      (Normal (),
       mkUI (control_heap registered) (_registeredControls registered)
            (_currentControl registered) (_controlsContainer registered)
            (_canvasControlsContainer registered)
            (overview_display registered) (calls registered ++ new)) ∧
    length new = 2 * length (_registeredControls registered) ∧
    ∀ c, calls_on c new =
         if bool_decide (c ∈ (_registeredControls registered).*2)
         then [SetContainers c (_controlsContainer registered)
                             (_canvasControlsContainer registered); Init c]
         else [].
Proof.
  apply (initControls_each_once example_inherited insertion_order registered).
  - reflexivity.
  - by apply (bool_decide_unpack _); vm_compute.
  - by apply (bool_decide_unpack _); vm_compute.
Defined.

End NightUIControlsExamplesFacts.
